(** * LAN rendezvous and relay: chunked transfers, the room server and
      the image library

    A shallow embedding of four parts of the repository:

    - [Transfer]: the receiving side of chunked file transfers in
      [app.js] ([receiveFile], [handleTransferStart], [handleFileChunk],
      [completeFileTransfer], [cancelFileTransfer] and the local-server
      variants [handleLocalFileTransfer], [handleLocalTransferStart],
      [handleLocalFileChunk], [completeLocalFileTransfer]);
    - [Relay]: the WebSocket server class [LocalImageFlowServer]
      ([onWsConnection], [handleMessage] and the handlers it calls);
    - [Library]: the image library of [app.js] ([processFiles],
      [addImage], [updateFileTypeStats], [processImageLossless],
      [removeImage]);
    - [Sharing]: the sending side ([sendFile], [sendFileViaLocalServer],
      [calculateDataUrlSize], [handleIncomingConnection]).

    JavaScript [Map]s are finite maps, with keys compared as
    SameValueZero compares them, a [Set] of client ids is a
    duplicate-free list in insertion order, a sparse [Array] is a list
    of optional slots, and every DOM or socket effect is appended to a
    log. *)

From stdpp Require Import gmap strings list fin_maps pretty.
From Stdlib Require Import ZArith Ascii.

Open Scope string_scope.
Open Scope list_scope.
Open Scope nat_scope.

(** ** Receiving side of a chunked transfer ([app.js]) *)

Module Transfer.

(** A transfer id, as a key of [this.activeTransfers].  The senders of
    the app make it a number ([Date.now() + Math.random()]); the cancel
    button of the progress widget passes a string.  A [Map] compares
    keys by SameValueZero: a number and a string are never the same
    key, two strings are the same key when they are the same text, and
    two numbers exactly when [String] gives the same text for both, so
    a number is kept by that text. *)
Inductive key :=
| KNum (text : string)
| KStr (s : string).

#[global] Instance key_eq_dec : EqDecision key.
Proof. solve_decision. Defined.

#[global] Instance key_countable : Countable key.
Proof.
  refine (inj_countable'
    (λ k, match k with KNum t => inl t | KStr s => inr s end)
    (λ e, match e with inl t => KNum t | inr s => KStr s end) _).
  by intros [].
Defined.

(** [`${transferId}`]: the text of the id in a template literal. *)
Definition key_text (k : key) : string :=
  match k with KNum t => t | KStr s => s end.

(** [new Array(n)] returns an array of [n] holes for [n] up to
    [2^32 - 1] and throws a [RangeError] above. *)
Definition array_length_ok (n : nat) : Prop := (N.of_nat n < 2 ^ 32)%N.

(** [a[i]] is an element of the array for [i] up to [2^32 - 2]; a larger
    [i] names a plain property, which neither [length] nor [join] sees. *)
Definition array_index_ok (i : nat) : Prop := (N.of_nat i < 2 ^ 32 - 1)%N.

(** [transfer_start] / [file-transfer-start] payload.  [st_from] is the
    [from] field the server attaches; it is absent on the peer path. *)
Record start_msg := StartMsg {
  st_transferId : key;
  st_fileName : string;
  st_fileSize : N;
  st_totalChunks : nat;
  st_from : option string
}.

(** [file_chunk] / [file-chunk] payload. *)
Record chunk_msg := ChunkMsg {
  transferId : key;
  chunkIndex : nat;
  chunk : string;
  isLast : bool
}.

(** The session object stored in [this.activeTransfers]. *)
Record transfer := Transfer {
  fileName : string;
  fileSize : N;
  totalChunks : nat;
  chunks : list (option string);
  receivedChunks : nat;
  from : option string
}.

(** What the handlers do to the page: progress widgets, the download
    link that is clicked, notifications.  A widget effect carries the
    id that the handler passes on; the element it creates or looks up
    is named by the text of that id ([key_text]). *)
Inductive effect :=
| ShowProgress (tid : key) (name mode : string) (current total : nat)
| UpdateProgress (tid : key) (current total : nat)
| HideProgress (tid : key)
| Download (href name : string)
| Notify (text kind : string).

#[global] Instance effect_eq_dec : EqDecision effect.
Proof. solve_decision. Defined.

(** [this.activeTransfers] is [undefined] until the first transfer start. *)
Record app := App {
  activeTransfers : option (gmap key transfer);
  effects : list effect
}.

Definition emit (s : app) (es : list effect) : app :=
  {| activeTransfers := activeTransfers s; effects := effects s ++ es |}.

Definition sessions (s : app) : gmap key transfer :=
  default ∅ (activeTransfers s).

(** [a[i] = v] on a JavaScript array, for an index that names an
    element ([array_index_ok]): in range it overwrites the slot, out of
    range it extends the array with holes up to [i]. *)
Definition array_set (a : list (option string)) (i : nat) (v : string)
  : list (option string) :=
  if decide (i < length a) then <[i := Some v]> a
  else a ++ replicate (i - length a) None ++ [Some v].

(** [a.join('')]: a hole contributes the empty string. *)
Definition join (a : list (option string)) : string :=
  foldr (λ slot acc, default "" slot +:+ acc) "" a.

(** The concatenation of the sender's chunks in index order. *)
Definition concat_chunks (file : list string) : string :=
  foldr String.append "" file.

(** [handleTransferStart], for a declared total that [new Array]
    accepts ([array_length_ok]); above, the call throws before any
    session is stored. *)
Definition handleTransferStart (s : app) (data : start_msg) : app :=
  {| activeTransfers := Some (<[st_transferId data :=
        {| fileName := st_fileName data;
           fileSize := st_fileSize data;
           totalChunks := st_totalChunks data;
           chunks := replicate (st_totalChunks data) None;
           receivedChunks := 0;
           from := None |}]> (sessions s));
     effects := effects s ++
       [ShowProgress (st_transferId data) (st_fileName data) "receiving"
          0 (st_totalChunks data)] |}.

(** The two statements that mutate the session object:
    [transfer.chunks[data.chunkIndex] = data.chunk; transfer.receivedChunks++]. *)
Definition store_chunk (t : transfer) (data : chunk_msg) : transfer :=
  {| fileName := fileName t;
     fileSize := fileSize t;
     totalChunks := totalChunks t;
     chunks := array_set (chunks t) (chunkIndex data) (chunk data);
     receivedChunks := S (receivedChunks t);
     from := from t |}.

(** Handlers return [None] when the JavaScript throws a [TypeError]
    before touching anything ([this.activeTransfers] still [undefined],
    or a method that the class does not define). *)
Definition completeFileTransfer (s : app) (tid : key) : option app :=
  m ← activeTransfers s;
  match m !! tid with
  | None => Some s
  | Some t =>
      Some {| activeTransfers := Some (delete tid m);
              effects := effects s ++
                [Download (join (chunks t)) (fileName t);
                 HideProgress tid;
                 Notify (fileName t +:+ " sikeresen fogadva!") "success"] |}
  end.

Definition handleFileChunk (s : app) (data : chunk_msg) : option app :=
  m ← activeTransfers s;
  match m !! transferId data with
  | None => Some s
  | Some t =>
      let t' := store_chunk t data in
      let s' := {| activeTransfers := Some (<[transferId data := t']> m);
                   effects := effects s ++
                     [UpdateProgress (transferId data)
                        (receivedChunks t') (totalChunks t')] |} in
      if isLast data || bool_decide (receivedChunks t' = totalChunks t')
      then completeFileTransfer s' (transferId data)
      else Some s'
  end.

Definition handleLegacyFileReceive (s : app) (data name : string) : app :=
  emit s [Download data name; Notify (name +:+ " fogadva!") "success"].

Definition cancelFileTransfer (s : app) (tid : key) : app :=
  {| activeTransfers := delete tid <$> activeTransfers s;
     effects := effects s ++
       [HideProgress tid; Notify "Fájlátvitel megszakítva" "info"] |}.

(** The cancel button that [showFileTransferProgress] puts into the
    widget of [tid]: its [onclick] is the text
    [app.cancelFileTransfer('${transferId}')], a call whose argument is
    the text of the id between quotes. *)
Definition cancel_click (s : app) (tid : key) : app :=
  cancelFileTransfer s (KStr (key_text tid)).

(** Messages of the peer connection, by their [type]. *)
Inductive peer_msg :=
| TransferStart (data : start_msg)
| FileChunk (data : chunk_msg)
| TransferComplete (tid : key)
| Legacy (data name : string).

(** [receiveFile]: [handleTransferComplete] is called but the class does
    not define it, so a [transfer_complete] message throws. *)
Definition receiveFile (s : app) (msg : peer_msg) : option app :=
  match msg with
  | TransferStart data => Some (handleTransferStart s data)
  | FileChunk data => handleFileChunk s data
  | TransferComplete _ => None
  | Legacy data name => Some (handleLegacyFileReceive s data name)
  end.

(** One event of the peer connection: an exception leaves the state as
    it was. *)
Definition deliver (s : app) (msg : peer_msg) : app :=
  default s (receiveFile s msg).

Definition run (s : app) (msgs : list peer_msg) : app :=
  foldl deliver s msgs.

(** *** The local-server path *)

(** As [handleTransferStart], for a total that [new Array] accepts. *)
Definition handleLocalTransferStart (s : app) (data : start_msg) : app :=
  {| activeTransfers := Some (<[st_transferId data :=
        {| fileName := st_fileName data;
           fileSize := st_fileSize data;
           totalChunks := st_totalChunks data;
           chunks := replicate (st_totalChunks data) None;
           receivedChunks := 0;
           from := st_from data |}]> (sessions s));
     effects := effects s ++
       [ShowProgress (st_transferId data) (st_fileName data) "receiving"
          0 (st_totalChunks data);
        Notify ("Fájl fogadása: " +:+ st_fileName data) "info"] |}.

Definition completeLocalFileTransfer (s : app) (tid : key) : option app :=
  m ← activeTransfers s;
  match m !! tid with
  | None => Some s
  | Some t =>
      Some {| activeTransfers := Some (delete tid m);
              effects := effects s ++
                [Download (join (chunks t)) (fileName t);
                 HideProgress tid;
                 Notify (fileName t +:+ " sikeresen letöltve!") "success"] |}
  end.

Definition handleLocalFileChunk (s : app) (data : chunk_msg) : option app :=
  m ← activeTransfers s;
  match m !! transferId data with
  | None => Some s
  | Some t =>
      let t' := store_chunk t data in
      let s' := {| activeTransfers := Some (<[transferId data := t']> m);
                   effects := effects s ++
                     [UpdateProgress (transferId data)
                        (receivedChunks t') (totalChunks t')] |} in
      if bool_decide (receivedChunks t' = totalChunks t')
      then completeLocalFileTransfer s' (transferId data)
      else Some s'
  end.

Inductive local_msg :=
| LocalTransferStart (data : start_msg)
| LocalFileChunk (data : chunk_msg)
| LocalFileComplete (tid : key).

(** [handleLocalFileTransfer]; [handleLocalTransferComplete] is not
    defined by the class either. *)
Definition handleLocalFileTransfer (s : app) (msg : local_msg) : option app :=
  match msg with
  | LocalTransferStart data => Some (handleLocalTransferStart s data)
  | LocalFileChunk data => handleLocalFileChunk s data
  | LocalFileComplete _ => None
  end.

(** The socket's [onmessage] wraps the dispatch in [try]/[catch]: an
    exception is logged and the state stays as it was. *)
Definition deliver_local (s : app) (msg : local_msg) : app :=
  default s (handleLocalFileTransfer s msg).

Definition run_local (s : app) (msgs : list local_msg) : app :=
  foldl deliver_local s msgs.




(** *** Observations on the effect log *)

(** The files handed to the user: every clicked download link. *)
Definition downloads (es : list effect) : list (string * string) :=
  omap (λ e, match e with Download href name => Some (href, name) | _ => None end) es.

(** How often the progress widget of [tid] was torn down.  Chunk
    handling does this only inside [completeFileTransfer]. *)
Definition completions (tid : key) (es : list effect) : nat :=
  length (filter (λ e, e = HideProgress tid) es).

#[global] Arguments downloads : simpl never.
#[global] Arguments completions : simpl never.

Definition is_start_of (tid : key) (msg : peer_msg) : Prop :=
  match msg with
  | TransferStart data => st_transferId data = tid
  | _ => False
  end.

Definition is_chunk_of (tid : key) (msg : peer_msg) : Prop :=
  match msg with
  | FileChunk data => transferId data = tid
  | _ => False
  end.

#[global] Instance is_chunk_of_dec tid msg : Decision (is_chunk_of tid msg).
Proof. destruct msg; simpl; apply _. Defined.

(** How many chunk messages for [tid] a batch of messages holds. *)
Definition chunk_count (tid : key) (msgs : list peer_msg) : nat :=
  length (filter (is_chunk_of tid) msgs).

(** 1 while [tid] has a session, 0 otherwise. *)
Definition pending (tid : key) (s : app) : nat :=
  if sessions s !! tid is Some _ then 1 else 0.

(** The slot array after a batch of chunk messages. *)
Definition fill (a : list (option string)) (cs : list chunk_msg)
  : list (option string) :=
  foldl (λ a c, array_set a (chunkIndex c) (chunk c)) a cs.

(** The completion test of [handleFileChunk] for a message that
    reaches a session which has counted [received] messages before it:
    [data.isLast || transfer.receivedChunks === transfer.totalChunks],
    read after the increment. *)
Definition triggers (total received : nat) (c : chunk_msg) : bool :=
  isLast c || bool_decide (S received = total).

(** Of the chunk messages [cs] of one transfer, those that reach its
    session: all up to and including the first that passes the test. *)
Fixpoint until_trigger (total received : nat) (cs : list chunk_msg)
  : list chunk_msg :=
  match cs with
  | [] => []
  | c :: cs' =>
      if triggers total received c then [c]
      else c :: until_trigger total (S received) cs'
  end.

(** Whether one of [cs] passes the test. *)
Fixpoint triggered (total received : nat) (cs : list chunk_msg) : bool :=
  match cs with
  | [] => false
  | c :: cs' => triggers total received c || triggered total (S received) cs'
  end.

(** The chunk message carries the slice of [file] at its index. *)
Definition from_file (file : list string) (c : chunk_msg) : Prop :=
  file !! chunkIndex c = Some (chunk c).

End Transfer.

(** ** The WebSocket server ([LocalImageFlowServer]) *)

Module Relay.

(** Values found in the fields of a parsed message.  [VObj] stands for
    a nested object or array, which the server never inspects. *)
Inductive jsval :=
| VUndef
| VNull
| VBool (b : bool)
| VNum (n : Z)
| VStr (s : string)
| VObj (text : string).

#[global] Instance jsval_eq_dec : EqDecision jsval.
Proof. solve_decision. Defined.

#[global] Instance jsval_countable : Countable jsval.
Proof.
  refine (inj_countable'
    (λ v, match v with
          | VUndef => inl (inl true)
          | VNull => inl (inl false)
          | VBool b => inl (inr b)
          | VNum n => inr (inl n)
          | VStr s => inr (inr (inl s))
          | VObj t => inr (inr (inr t))
          end)
    (λ e, match e with
          | inl (inl true) => VUndef
          | inl (inl false) => VNull
          | inl (inr b) => VBool b
          | inr (inl n) => VNum n
          | inr (inr (inl s)) => VStr s
          | inr (inr (inr t)) => VObj t
          end) _).
  by intros [].
Defined.

(** JavaScript truthiness, as used by [if (client.room)],
    [data.targetClient] and [roomName || ...]. *)
Definition truthy (v : jsval) : bool :=
  match v with
  | VUndef | VNull => false
  | VBool b => b
  | VNum n => negb (n =? 0)%Z
  | VStr s => negb (bool_decide (s = ""))
  | VObj _ => true
  end.

(** [data.k]: a missing property reads as [undefined]. *)
Definition field (data : gmap string jsval) (k : string) : jsval :=
  default VUndef (data !! k).

(** Entry of [this.clients].  [c_ws] names the socket of the connection. *)
Record client := Client {
  c_id : string;
  c_ws : nat;
  c_ip : string;
  c_userAgent : string;
  c_connectedAt : N;
  c_room : jsval
}.

(** Entry of [this.rooms].  [r_clients] is the [Set] of member ids in
    insertion order; a room made by [handleJoinRoom] has neither name
    nor creator. *)
Record room := Room {
  r_id : jsval;
  r_name : jsval;
  r_clients : list string;
  r_createdAt : N;
  r_creator : option string
}.

Record qr_data := QRData {
  qr_serverIP : string;
  qr_port : N;
  qr_roomId : string;
  qr_url : string;
  qr_timestamp : N
}.

Record device := Device {
  d_id : string;
  d_name : string;
  d_ip : string;
  d_connectedAt : N;
  d_room : jsval
}.

(** The JSON texts handed to [ws.send]. *)
Inductive out_msg :=
| Welcome (clientId ip : string) (port timestamp : N)
| ErrorMsg (message : string)
| RoomJoined (roomId : jsval) (clients : list string)
| ClientJoined (clientId : string) (roomClients : list string)
| ClientLeft (clientId : string) (roomClients : list string)
| RoomCreated (roomId : string) (name : jsval) (qrData : qr_data)
| DeviceList (devices : list device) (ip : string) (port : N) (clientCount : nat)
| Relayed (obj : gmap string jsval).

(** The server object, the sockets and what was sent on them.
    [handlers] maps a socket to the client id captured by the closures
    that [onWsConnection] registered on it, [open_ws] holds the sockets
    whose [readyState] is [OPEN], and [sent] lists every [ws.send] call.
    The keys of [rooms] are whatever [data.roomId] held; a [Map]
    compares objects by identity, [VObj] keys are compared by their
    text here, so the two agree on every id that is not itself an
    object or array. *)
Record server := Server {
  localIP : string;
  port : N;
  clients : gmap string client;
  rooms : gmap jsval room;
  handlers : gmap nat string;
  open_ws : gset nat;
  sent : list (nat * out_msg)
}.

Definition set_clients (s : server) (cs : gmap string client) : server :=
  Server (localIP s) (port s) cs (rooms s) (handlers s) (open_ws s) (sent s).

Definition set_rooms (s : server) (rs : gmap jsval room) : server :=
  Server (localIP s) (port s) (clients s) rs (handlers s) (open_ws s) (sent s).

(** [ws.send(JSON.stringify(msg))] *)
Definition send (s : server) (ws : nat) (msg : out_msg) : server :=
  Server (localIP s) (port s) (clients s) (rooms s) (handlers s) (open_ws s)
    (sent s ++ [(ws, msg)]).

(** Several [ws.send] calls in a row. *)
Definition send_all (s : server) (l : list (nat * out_msg)) : server :=
  Server (localIP s) (port s) (clients s) (rooms s) (handlers s) (open_ws s)
    (sent s ++ l).

Definition set_room_clients (r : room) (members : list string) : room :=
  Room (r_id r) (r_name r) members (r_createdAt r) (r_creator r).

Definition set_client_room (c : client) (roomId : jsval) : client :=
  Client (c_id c) (c_ws c) (c_ip c) (c_userAgent c) (c_connectedAt c) roomId.

(** [Set.prototype.add] and [Set.prototype.delete] *)
Definition set_add (x : string) (l : list string) : list string :=
  if decide (x ∈ l) then l else l ++ [x].

Definition set_delete (x : string) (l : list string) : list string :=
  filter (λ y, y ≠ x) l.

(** [this.clients.get(v)] for a value read from a message: the keys of
    the registry are strings, so only a string can hit. *)
Definition get_client (s : server) (v : jsval) : option client :=
  match v with
  | VStr k => clients s !! k
  | _ => None
  end.

(** The body of the [forEach] in [broadcastToRoom]. *)
Definition broadcast_one (message : out_msg) (excludeClient : option string)
    (s : server) (id : string) : server :=
  if decide (Some id = excludeClient) then s
  else match clients s !! id with
       | Some c => if decide (c_ws c ∈ open_ws s) then send s (c_ws c) message else s
       | None => s
       end.

Definition broadcastToRoom (s : server) (roomId : jsval) (message : out_msg)
    (excludeClient : option string) : server :=
  match rooms s !! roomId with
  | None => s
  | Some r => foldl (broadcast_one message excludeClient) s (r_clients r)
  end.

Definition leaveRoom (s : server) (clientId : string) (roomId : jsval) : server :=
  match rooms s !! roomId with
  | None => s
  | Some r =>
      let members := set_delete clientId (r_clients r) in
      if decide (length members = 0)
      then set_rooms s (delete roomId (rooms s))
      else broadcastToRoom
             (set_rooms s (<[roomId := set_room_clients r members]> (rooms s)))
             roomId (ClientLeft clientId members) None
  end.

(** [if (client.room) this.leaveRoom(clientId, client.room)] *)
Definition leave_current (s : server) (clientId : string) (c : client) : server :=
  if truthy (c_room c) then leaveRoom s clientId (c_room c) else s.

Definition handleJoinRoom (s : server) (now : N) (clientId : string)
    (roomId : jsval) : server :=
  match clients s !! clientId with
  | None => s
  | Some c =>
      let s1 := leave_current s clientId c in
      let r := default (Room roomId VUndef [] now None) (rooms s1 !! roomId) in
      let members := set_add clientId (r_clients r) in
      let s2 := set_clients
                  (set_rooms s1 (<[roomId := set_room_clients r members]> (rooms s1)))
                  (<[clientId := set_client_room c roomId]> (clients s1)) in
      let s3 := broadcastToRoom s2 roomId (ClientJoined clientId members)
                  (Some clientId) in
      send s3 (c_ws c) (RoomJoined roomId (filter (λ id, id ≠ clientId) members))
  end.

Definition generateQRData (s : server) (now : N) (roomId : string) : qr_data :=
  QRData (localIP s) (port s) roomId
    ("http://" +:+ localIP s +:+ ":" +:+ pretty (port s) +:+ "/?room=" +:+ roomId)
    now.

(** [roomId] is the string returned by [generateRoomId]. *)
Definition handleCreateRoom (s : server) (now : N) (roomId clientId : string)
    (roomName : jsval) : server :=
  let s1 := set_rooms s
    (<[VStr roomId :=
         Room (VStr roomId)
           (if truthy roomName then roomName else VStr ("Room " +:+ roomId))
           [clientId] now (Some clientId)]> (rooms s)) in
  match clients s1 !! clientId with
  | Some c =>
      send (set_clients s1 (<[clientId := set_client_room c (VStr roomId)]> (clients s1)))
        (c_ws c) (RoomCreated roomId roomName (generateQRData s now roomId))
  | None => s1
  end.

(** [{ type: data.type, from: clientId, ...data }]: the properties of
    [data] are spread last and win over the two written before them. *)
Definition signaling_message (clientId : string) (data : gmap string jsval)
  : gmap string jsval :=
  data ∪ <["type" := field data "type"]> (<["from" := VStr clientId]> ∅).

(** [{ ...data, from: clientId }]: [from] is written last. *)
Definition file_message (clientId : string) (data : gmap string jsval)
  : gmap string jsval :=
  <["from" := VStr clientId]> data.

Definition handleWebRTCSignaling (s : server) (clientId : string)
    (data : gmap string jsval) : server :=
  match clients s !! clientId with
  | None => s
  | Some c =>
      if truthy (c_room c)
      then broadcastToRoom s (c_room c) (Relayed (signaling_message clientId data))
             (Some clientId)
      else s
  end.

Definition handleFileTransfer (s : server) (clientId : string)
    (data : gmap string jsval) : server :=
  match clients s !! clientId with
  | None => s
  | Some c =>
      if negb (truthy (c_room c)) then s
      else if truthy (field data "targetClient") then
        match get_client s (field data "targetClient") with
        | Some target =>
            if decide (c_ws target ∈ open_ws s)
            then send s (c_ws target) (Relayed (file_message clientId data))
            else s
        | None => s
        end
      else broadcastToRoom s (c_room c) (Relayed (file_message clientId data))
             (Some clientId)
  end.

(** The devices are listed in the order of [map_to_list], not in the
    insertion order of the [Map]. *)
Definition handleDeviceDiscovery (s : server) (clientId : string) : server :=
  match clients s !! clientId with
  | None => s
  | Some c =>
      let devices :=
        (λ '(id, info), Device id ("Device " +:+ String.substring 0 8 id)
                          (c_ip info) (c_connectedAt info) (c_room info))
          <$> filter (λ '(id, _), id ≠ clientId) (map_to_list (clients s)) in
      send s (c_ws c) (DeviceList devices (localIP s) (port s) (size (clients s)))
  end.

Definition handleClientDisconnect (s : server) (clientId : string) : server :=
  let s1 := match clients s !! clientId with
            | Some c => leave_current s clientId c
            | None => s
            end in
  set_clients s1 (delete clientId (clients s1)).

(** [handleMessage]: the [switch] on [data.type].  [fresh] is what
    [generateRoomId] returns when it is called. *)
Definition handleMessage (s : server) (now : N) (fresh clientId : string)
    (data : gmap string jsval) : server :=
  match clients s !! clientId with
  | None => s
  | Some _ =>
      let type := field data "type" in
      if decide (type = VStr "join-room") then
        handleJoinRoom s now clientId (field data "roomId")
      else if decide (type = VStr "create-room") then
        handleCreateRoom s now fresh clientId (field data "roomName")
      else if decide (type = VStr "webrtc-offer" ∨ type = VStr "webrtc-answer"
                      ∨ type = VStr "webrtc-ice-candidate") then
        handleWebRTCSignaling s clientId data
      else if decide (type = VStr "file-transfer-start" ∨ type = VStr "file-chunk"
                      ∨ type = VStr "file-complete") then
        handleFileTransfer s clientId data
      else if decide (type = VStr "device-discovery") then
        handleDeviceDiscovery s clientId
      else s
  end.

(** Outcome of [JSON.parse] on an inbound text: a [SyntaxError], the
    value [null], an object with its fields, or another value (number,
    string, boolean, array), none of whose properties the server reads. *)
Inductive payload :=
| Unparsable
| PNull
| PObject (data : gmap string jsval)
| POther.

(** The ['message'] listener: [try { JSON.parse; handleMessage } catch
    { ws.send(error) }].  Reading [data.type] of [null] throws, after
    the registry lookup of [handleMessage]. *)
Definition onMessage (s : server) (now : N) (fresh : string) (ws : nat)
    (clientId : string) (p : payload) : server :=
  let error := ErrorMsg "Invalid JSON message" in
  match p with
  | Unparsable => send s ws error
  | PNull => if clients s !! clientId is Some _ then send s ws error else s
  | PObject data => handleMessage s now fresh clientId data
  | POther => handleMessage s now fresh clientId ∅
  end.

(** [onWsConnection]; [clientId] is what [generateClientId] returns. *)
Definition onWsConnection (s : server) (now : N) (ws : nat)
    (clientId ip userAgent : string) : server :=
  let s1 := Server (localIP s) (port s)
              (<[clientId := Client clientId ws ip userAgent now VNull]> (clients s))
              (rooms s) (<[ws := clientId]> (handlers s))
              ({[ws]} ∪ open_ws s) (sent s) in
  send s1 ws (Welcome clientId (localIP s) (port s) now).

(** What can happen to the server.  [fresh] is the output of the id
    generator used by the event, [Closing] is a socket leaving the
    [OPEN] state before its ['close'] event is emitted. *)
Inductive event :=
| Connection (ws : nat) (fresh ip userAgent : string)
| Message (ws : nat) (p : payload) (fresh : string)
| Closing (ws : nat)
| Close (ws : nat)
| SocketError (ws : nat).

Definition close_socket (s : server) (ws : nat) : server :=
  Server (localIP s) (port s) (clients s) (rooms s) (handlers s)
    (open_ws s ∖ {[ws]}) (sent s).

Definition step (s : server) (e : N * event) : server :=
  let '(now, ev) := e in
  match ev with
  | Connection ws fresh ip userAgent => onWsConnection s now ws fresh ip userAgent
  | Message ws p fresh =>
      match handlers s !! ws with
      | Some clientId => onMessage s now fresh ws clientId p
      | None => s
      end
  | Closing ws => close_socket s ws
  | Close ws =>
      match handlers s !! ws with
      | Some clientId => handleClientDisconnect (close_socket s ws) clientId
      | None => s
      end
  | SocketError ws =>
      match handlers s !! ws with
      | Some clientId => handleClientDisconnect s clientId
      | None => s
      end
  end.

Definition new_server (ip : string) (port : N) : server :=
  Server ip port ∅ ∅ ∅ ∅ [].

Definition run (s : server) (trace : list (N * event)) : server :=
  foldl step s trace.

(** *** Observations *)

(** The rooms whose member set holds [clientId]. *)
Definition rooms_of (s : server) (clientId : string) : list jsval :=
  (map_to_list (filter (λ kv, clientId ∈ r_clients kv.2) (rooms s))).*1.

(** The socket on which a broadcast reaches member [id], if any: the
    member is not the excluded one, is registered and its socket is open. *)
Definition recipient (s : server) (excludeClient : option string)
    (id : string) : option nat :=
  if decide (Some id = excludeClient) then None
  else c ← clients s !! id;
       if decide (c_ws c ∈ open_ws s) then Some (c_ws c) else None.

(** The sockets a broadcast to [roomId] reaches, in the order of the
    member set. *)
Definition recipients (s : server) (roomId : jsval)
    (excludeClient : option string) : list nat :=
  match rooms s !! roomId with
  | None => []
  | Some r => omap (recipient s excludeClient) (r_clients r)
  end.

(** The same message on each of the sockets. *)
Definition to_each (msg : out_msg) (sockets : list nat) : list (nat * out_msg) :=
  (λ ws, (ws, msg)) <$> sockets.

(** What was sent on socket [ws]. *)
Definition inbox (s : server) (ws : nat) : list out_msg :=
  omap (λ '(w, msg), if decide (w = ws) then Some msg else None) (sent s).



(** Every room of the registry has at least one member. *)
Definition rooms_nonempty (s : server) : Prop :=
  ∀ rid r, rooms s !! rid = Some r → r_clients r ≠ [].

(** Messages as a client puts them on the wire. *)
Definition join_room (roomId : string) : payload :=
  PObject {[ "type" := VStr "join-room"; "roomId" := VStr roomId ]}.

Definition create_room (roomName : string) : payload :=
  PObject {[ "type" := VStr "create-room"; "roomName" := VStr roomName ]}.

End Relay.

(** ** Invariants of the server state *)

Module RelayObs.
Import Relay.

(** No member list holds an id twice. *)
Definition members_nodup (s : server) : Prop :=
  ∀ rid r, rooms s !! rid = Some r → NoDup (r_clients r).





(** No other registered client uses the socket of [c]. *)
Definition own_socket (s : server) (clientId : string) (c : client) : Prop :=
  ∀ id c', clients s !! id = Some c' → c_ws c' = c_ws c → id = clientId.

(** The sockets a signaling message of [clientId] is relayed to. *)
Definition signaling_targets (s : server) (clientId : string) : list nat :=
  match clients s !! clientId with
  | Some c => if truthy (c_room c) then recipients s (c_room c) (Some clientId) else []
  | None => []
  end.

End RelayObs.

(** ** The image library ([app.js]) *)

Module Library.

(** [s.split(c)[1]]: the text between the first [c] and the second, if
    there is a first [c]. *)
Fixpoint after_char (c : ascii) (s : string) : option string :=
  match s with
  | EmptyString => None
  | String a s' => if Ascii.eqb a c then Some s' else after_char c s'
  end.

Fixpoint before_char (c : ascii) (s : string) : string :=
  match s with
  | EmptyString => EmptyString
  | String a s' =>
      if Ascii.eqb a c then EmptyString else String a (before_char c s')
  end.

Definition second_field (c : ascii) (s : string) : option string :=
  before_char c <$> after_char c s.

(** [s.toUpperCase()] on the letters a to z; other characters are kept
    (the texts it is applied to are MIME types). *)
Definition upper_ascii (a : ascii) : ascii :=
  let n := nat_of_ascii a in
  if (97 <=? n) && (n <=? 122) then ascii_of_nat (n - 32) else a.

Fixpoint toUpperCase (s : string) : string :=
  match s with
  | EmptyString => EmptyString
  | String a s' => String (upper_ascii a) (toUpperCase s')
  end.

(** A [File] as the browser hands it over. *)
Record file := File {
  f_name : string;
  f_type : string;
  f_size : N
}.

(** An entry of [this.images].  [id] is the number
    [Date.now() + Math.random()], kept as a key compared with [==]; the
    [file] object itself, the [addedAt] text and the format, dimensions
    and time that processing records are left out. *)
Record image := Image {
  img_id : N;
  img_name : string;
  img_size : N;
  img_type : string;
  img_width : N;
  img_height : N;
  img_src : string;
  img_processed : bool;
  img_processedSize : option N;
  img_processedSrc : option string
}.

(** *** The checks of [processFiles] *)

Definition supportedTypes : list string :=
  ["image/jpeg"; "image/jpg"; "image/png"; "image/webp"; "image/gif";
   "image/bmp"; "image/svg+xml"].

(** [50 * 1024 * 1024] *)
Definition maxFileSize : N := 50 * 1024 * 1024.

(** [this.storageData.limit], [1000 * 1024 * 1024] *)
Definition storageLimit : Z := 1000 * 1024 * 1024.

(** Why a file is left out, in the order the loop tests. *)
Inductive rejection := NotImage | Unsupported | TooLarge | EmptyFile.

Definition check (f : file) : option rejection :=
  if negb (String.prefix "image/" (f_type f)) then Some NotImage
  else if negb (bool_decide (f_type f ∈ supportedTypes)) then Some Unsupported
  else if (maxFileSize <? f_size f)%N then Some TooLarge
  else if (f_size f =? 0)%N then Some EmptyFile
  else None.

Definition total_size (files : list file) : Z :=
  foldr (λ f acc, Z.of_N (f_size f) + acc)%Z 0%Z files.

(** How the synchronous part of [processFiles] ends: with one of its
    four early returns, or by going on to load the valid files.
    [skipped] are the files the loop put aside, with the reason; a
    warning naming them is shown whenever there is one. *)
Inductive verdict :=
| NoFiles
| TooMany
| NothingValid (skipped : list (file * rejection))
| StorageFull (skipped : list (file * rejection))
| Proceed (valid : list file) (skipped : list (file * rejection)).

Definition processFiles_checks (originalSize : Z) (files : list file) : verdict :=
  if decide (length files = 0) then NoFiles
  else if decide (100 < length files) then TooMany
  else
    let valid := filter (λ f, check f = None) files in
    let skipped := omap (λ f, (λ r, (f, r)) <$> check f) files in
    if decide (length valid = 0) then NothingValid skipped
    else if decide (storageLimit < originalSize + total_size valid)%Z
         then StorageFull skipped
         else Proceed valid skipped.

(** *** The library and its statistics *)

(** An entry of [this.fileTypes]. *)
Record type_stat := TypeStat { ts_count : nat; ts_size : N }.

(** [this.images], the two sizes of [this.storageData] and
    [this.fileTypes]. *)
Record library := Lib {
  images : list image;
  originalSize : Z;
  compressedSize : Z;
  fileTypes : gmap string type_stat
}.

Definition empty_library : library := Lib [] 0 0 ∅.

(** [type.split('/')[1].toUpperCase()]; [None] when the second field
    is [undefined] and the call throws. *)
Definition extension_of (type : string) : option string :=
  toUpperCase <$> second_field "/"%char type.

(** [updateFileTypeStats]; [None] when it throws. *)
Definition updateFileTypeStats (types : gmap string type_stat) (type : string)
    (size : N) : option (gmap string type_stat) :=
  extension ← extension_of type;
  Some (match types !! extension with
        | Some current =>
            <[extension := TypeStat (ts_count current + 1) (ts_size current + size)]> types
        | None => <[extension := TypeStat 1 size]> types
        end).

(** The [img.onload] callback of [addImage], for a file that was read
    as [src] and decoded with the given dimensions.  The flag tells how
    the callback ends: [true] when it reaches [resolve()], [false] when
    it calls [reject(...)].  What this makes of the promise is
    [addImage_promise].  The entry is pushed and the size added before
    the statistics are updated, so they stay when that call throws. *)
Definition addImage_onload (lib : library) (id : N) (f : file)
    (width height : N) (src : string) : library * bool :=
  if decide (width = 0%N ∨ height = 0%N) then (lib, false)
  else if decide (16384 < width ∨ 16384 < height)%N then (lib, false)
  else
    let entry := Image id (f_name f) (f_size f) (f_type f) width height src
                   false None None in
    let images' := images lib ++ [entry] in
    let original' := (originalSize lib + Z.of_N (f_size f))%Z in
    match updateFileTypeStats (fileTypes lib) (f_type f) (f_size f) with
    | Some types' => (Lib images' original' (compressedSize lib) types', true)
    | None => (Lib images' original' (compressedSize lib) (fileTypes lib), false)
    end.

(** How the promise of [addImage] stands once [img.onload] has run.
    [reader.onload] arms [setTimeout(() => reject(...), 30000)] and
    nothing clears that timer: when decoding takes longer, the promise
    is rejected before the callback runs, and the [resolve()] of the
    callback has no effect on it, while what the callback does to the
    library is done all the same.  [timer_fired] tells whether the
    timer ran before the callback. *)
Inductive settled := Fulfilled | Rejected.

Definition addImage_promise (timer_fired : bool) (lib : library) (id : N)
    (f : file) (width height : N) (src : string) : settled :=
  if timer_fired then Rejected
  else if (addImage_onload lib id f width height src).2 then Fulfilled
       else Rejected.

(** [this.images.findIndex(img => img.id == imageId)] and the
    [splice] at that index. *)
Fixpoint take_out (imageId : N) (l : list image) : option (image * list image) :=
  match l with
  | [] => None
  | img :: l' =>
      if decide (img_id img = imageId) then Some (img, l')
      else '(found, rest) ← take_out imageId l'; Some (found, img :: rest)
  end.

(** [removeImage], without its updates of the page. *)
Definition removeImage (lib : library) (imageId : N) : library :=
  match take_out imageId (images lib) with
  | None => lib
  | Some (img, rest) =>
      Lib rest (originalSize lib - Z.of_N (img_size img))%Z
        (match img_processedSize img with
         | Some size => if decide (size = 0%N) then compressedSize lib
                        else (compressedSize lib - Z.of_N size)%Z
         | None => compressedSize lib
         end)
        (fileTypes lib)
  end.

(** The entry that [this.images.find(img => img.id == imageId)] gave,
    updated in place. *)
Fixpoint mark_processed (imageId : N) (dataUrl : string) (size : N)
    (l : list image) : list image :=
  match l with
  | [] => []
  | img :: l' =>
      if decide (img_id img = imageId)
      then Image (img_id img) (img_name img) (img_size img) (img_type img)
             (img_width img) (img_height img) (img_src img)
             true (Some size) (Some dataUrl) :: l'
      else img :: mark_processed imageId dataUrl size l'
  end.

(** The [img.onload] callback of [processImageLossless], once
    [applyLosslessProcessing] gave [dataUrl] and [size].  The entry was
    found when processing was started; when it has been removed since,
    the update reaches an object that is no longer listed, and the size
    is added all the same. *)
Definition processed_onload (lib : library) (imageId : N) (dataUrl : string)
    (size : N) : library :=
  Lib (mark_processed imageId dataUrl size (images lib))
    (originalSize lib)
    (compressedSize lib + Z.of_N size)%Z
    (fileTypes lib).

(** What happens to the library: an image finishes loading, one
    finishes processing, or one is removed. *)
Inductive lib_op :=
| Loaded (id : N) (f : file) (width height : N) (src : string)
| Processed (imageId : N) (dataUrl : string) (size : N)
| Removed (imageId : N).

Definition lib_step (lib : library) (op : lib_op) : library :=
  match op with
  | Loaded id f width height src => (addImage_onload lib id f width height src).1
  | Processed imageId dataUrl size => processed_onload lib imageId dataUrl size
  | Removed imageId => removeImage lib imageId
  end.

Definition lib_run (lib : library) (ops : list lib_op) : library :=
  foldl lib_step lib ops.

(** The files that the [img.onload] callbacks of a history count for
    extension [ext]: those that decode to acceptable dimensions and
    whose type has that extension. *)
Definition counted_with (ext : string) (ops : list lib_op) : list file :=
  omap (λ op,
          match op with
          | Loaded id f width height src =>
              if bool_decide (width ≠ 0%N ∧ height ≠ 0%N
                              ∧ (width ≤ 16384)%N ∧ (height ≤ 16384)%N)
                 && bool_decide (extension_of (f_type f) = Some ext)
              then Some f else None
          | _ => None
          end) ops.

Definition passes (f : file) : Prop :=
  String.prefix "image/" (f_type f) = true ∧ f_type f ∈ supportedTypes ∧
  (0 < f_size f ≤ maxFileSize)%N.

Definition dimensions_ok (img : image) : Prop :=
  (0 < img_width img ≤ 16384)%N ∧ (0 < img_height img ≤ 16384)%N.

Definition sum_sizes (l : list image) : Z :=
  foldr (λ img acc, Z.of_N (img_size img) + acc)%Z 0%Z l.

Definition library_ok (lib : library) : Prop :=
  originalSize lib = sum_sizes (images lib) ∧ Forall dimensions_ok (images lib).

(** What one more resolved load of [f] makes of the entry of its
    extension. *)
Definition count_in (o : option type_stat) (f : file) : option type_stat :=
  Some (match o with
        | Some current => TypeStat (ts_count current + 1) (ts_size current + f_size f)
        | None => TypeStat 1 (f_size f)
        end).

(** The statistics entry that counts the files [l]. *)
Definition tally (l : list file) : option type_stat :=
  match l with
  | [] => None
  | _ => Some (TypeStat (length l) (foldr (λ f acc, f_size f + acc)%N 0%N l))
  end.

(** A batch of loads: each file with the id it gets, the dimensions it
    decodes to and the data URL it was read as. *)
Definition load (x : N * file * N * N * string) : lib_op :=
  let '(id, f, width, height, src) := x in Loaded id f width height src.

Definition loaded_file (x : N * file * N * N * string) : file :=
  let '(_, f, _, _, _) := x in f.

End Library.

(** ** Sending files and sizing data URLs ([app.js]) *)

Module Sharing.
Import Transfer Library.

(** [s.slice(start, end)] on a string, for indices that are not
    negative: the characters from [start] up to, not including, [end],
    both cut off at the end of the string. *)
Fixpoint string_drop (n : nat) (s : string) : string :=
  match n, s with
  | 0, _ => s
  | S n, String _ s' => string_drop n s'
  | S _, EmptyString => EmptyString
  end.

Fixpoint string_take (n : nat) (s : string) : string :=
  match n, s with
  | 0, _ => EmptyString
  | S n, String a s' => String a (string_take n s')
  | S _, EmptyString => EmptyString
  end.

Definition slice (s : string) (start stop : nat) : string :=
  string_take (stop - start) (string_drop start s).

(** [const chunkSize = 16384], written as a product to keep the
    numeral small. *)
Definition chunkSize : nat := 16 * 1024.

(** [Math.ceil(n / d)] for a positive [d] *)
Definition ceil_div (n d : nat) : nat := (n + d - 1) / d.

(** The chunk the sending loop cuts at index [i]:
    [fileData.slice(i * chunkSize, Math.min(i * chunkSize + chunkSize, fileData.length))]. *)
Definition chunk_at (size : nat) (fileData : string) (i : nat) : string :=
  slice fileData (i * size) (Nat.min (i * size + size) (String.length fileData)).

(** [s.match(/c/g)?.length || 0] for a single character [c] *)
Fixpoint count_char (c : ascii) (s : string) : nat :=
  match s with
  | EmptyString => 0
  | String a s' => (if Ascii.eqb a c then 1 else 0) + count_char c s'
  end.

(** [calculateDataUrlSize]; an empty or missing second field gives 0. *)
Definition calculateDataUrlSize (dataUrl : string) : Z :=
  match second_field ","%char dataUrl with
  | Some base64String =>
      if decide (base64String = "") then 0%Z
      else (Z.of_nat (String.length base64String * 3 / 4)
            - Z.of_nat (count_char "="%char base64String))%Z
  | None => 0%Z
  end.

(** [image.processedSrc || image.src] *)
Definition fileData_of (img : image) : string :=
  match img_processedSrc img with
  | Some p => if decide (p = "") then img_src img else p
  | None => img_src img
  end.

(** [image.processed ? `processed_${image.name}` : image.name] *)
Definition fileName_of (img : image) : string :=
  if img_processed img then "processed_" +:+ img_name img else img_name img.

(** The [file_chunk] messages of the sending loop, in the order sent;
    [isLast] is [i === totalChunks - 1]. *)
Definition chunk_messages (size : nat) (transferId : key) (fileData : string)
  : list chunk_msg :=
  let totalChunks := ceil_div (String.length fileData) size in
  (λ i, ChunkMsg transferId i (chunk_at size fileData i)
          (bool_decide (i = totalChunks - 1)))
    <$> seq 0 totalChunks.

(** [sendFile]: what is passed to [connection.send], in order, and what
    is shown.  [transferId] is the id the function draws, a number
    ([Date.now() + Math.random()], a [KNum] key), the two
    lookups are [this.images.find] and [this.connections.find], and
    [connection.send] is taken not to throw.  The declared size is kept
    as a natural by the receiving record; a negative result of
    [calculateDataUrlSize] is declared as 0.  The [imageId] field of the
    start message, which no receiver reads, is left out. *)
Definition sendFile (images : list image) (connections : list string)
    (transferId : key) (imageId : N) (connectionId : string)
  : list peer_msg * list effect :=
  match List.find (λ img, bool_decide (img_id img = imageId)) images,
        List.find (λ peer, bool_decide (peer = connectionId)) connections with
  | Some img, Some _ =>
      let fileData := fileData_of img in
      let fileName := fileName_of img in
      let totalChunks := ceil_div (String.length fileData) chunkSize in
      (TransferStart
         (StartMsg transferId fileName (Z.to_N (calculateDataUrlSize fileData))
            totalChunks None)
       :: (FileChunk <$> chunk_messages chunkSize transferId fileData),
       [ShowProgress transferId fileName "sending" 0 totalChunks]
       ++ ((λ i, UpdateProgress transferId (S i) totalChunks) <$> seq 0 totalChunks)
       ++ [HideProgress transferId;
           Notify (fileName +:+ " sikeresen elküldve!") "success"])
  | _, _ => ([], [Notify "Fájl küldése sikertelen!" "error"])
  end.

(** [sendFileViaLocalServer]: the messages written to the socket of the
    local server, in order, as the receiving app will read them once the
    server has relayed them ([st_from] is attached by the server; the
    [targetClient] field, which only the server reads, is left out; the
    chunks carry no last-chunk flag).  [ws_open] is
    [this.ws && this.ws.readyState === WebSocket.OPEN]. *)
Definition sendFileViaLocalServer (images : list image) (ws_open : bool)
    (transferId : key) (imageId : N)
  : list local_msg * list effect :=
  if negb ws_open then ([], [Notify "Helyi szerver kapcsolat nincs aktív!" "error"])
  else match List.find (λ img, bool_decide (img_id img = imageId)) images with
  | None => ([], [Notify "Kép nem található!" "error"])
  | Some img =>
      let fileData := fileData_of img in
      let fileName := fileName_of img in
      let totalChunks := ceil_div (String.length fileData) chunkSize in
      (LocalTransferStart
         (StartMsg transferId fileName (Z.to_N (calculateDataUrlSize fileData))
            totalChunks None)
       :: ((λ i, LocalFileChunk (ChunkMsg transferId i (chunk_at chunkSize fileData i) false))
             <$> seq 0 totalChunks),
       [ShowProgress transferId fileName "sending" 0 totalChunks]
       ++ ((λ i, UpdateProgress transferId (S i) totalChunks) <$> seq 0 totalChunks)
       ++ [HideProgress transferId;
           Notify (fileName +:+ " elküldve helyi hálózaton!") "success"])
  end.

(** The relay of the local server on a typed message: it sets [from]. *)
Definition relayed_from (sender : string) (msg : local_msg) : local_msg :=
  match msg with
  | LocalTransferStart d =>
      LocalTransferStart
        (StartMsg (st_transferId d) (st_fileName d) (st_fileSize d)
           (st_totalChunks d) (Some sender))
  | _ => msg
  end.

(** The [type] tag that [receiveFile] switches on; a legacy message has
    any other tag. *)
Definition has_type (type : string) (msg : peer_msg) : Prop :=
  match msg with
  | TransferStart _ => type = "transfer_start"
  | FileChunk _ => type = "file_chunk"
  | TransferComplete _ => type = "transfer_complete"
  | Legacy _ _ =>
      type ≠ "transfer_start" ∧ type ≠ "file_chunk" ∧ type ≠ "transfer_complete"
  end.

(** The ['data'] listener that [handleIncomingConnection] installs:
    [if (data.type === 'file') this.receiveFile(data)]. *)
Definition onConnectionData (s : app) (type : string) (msg : peer_msg)
  : option app :=
  if decide (type = "file") then receiveFile s msg else Some s.

Definition deliver_data (s : app) (type : string) (msg : peer_msg) : app :=
  default s (onConnectionData s type msg).

(** The tag [sendFile] puts on a message. *)
Definition type_of (msg : peer_msg) : string :=
  match msg with
  | TransferStart _ => "transfer_start"
  | FileChunk _ => "file_chunk"
  | TransferComplete _ => "transfer_complete"
  | Legacy _ _ => "file"
  end.

End Sharing.

(** * Properties of the transfer coordinator *)

Module TransferFacts.
Import Transfer.

Section Helpers.
Implicit Types (s : app) (m : gmap key transfer) (t : transfer)
  (c : chunk_msg) (a : list (option string)) (file : list string).

Lemma join_filled file : join (Some <$> file) = concat_chunks file.
Proof.
  unfold join, concat_chunks.
  induction file as [|x file IH]; [done|].
  rewrite fmap_cons. cbn [foldr]. by rewrite IH.
Qed.

Lemma downloads_app es1 es2 : downloads (es1 ++ es2) = downloads es1 ++ downloads es2.
Proof. apply omap_app. Qed.

Lemma completions_app tid es1 es2 :
  completions tid (es1 ++ es2) = completions tid es1 + completions tid es2.
Proof. unfold completions. by rewrite filter_app, length_app. Qed.

Lemma completions_cons tid e es :
  completions tid (e :: es) =
    (if decide (e = HideProgress tid) then 1 else 0) + completions tid es.
Proof. unfold completions. rewrite filter_cons. by case_decide. Qed.

Lemma completions_nil tid : completions tid [] = 0.
Proof. done. Qed.

Lemma run_app s l1 l2 : run s (l1 ++ l2) = run (run s l1) l2.
Proof. apply foldl_app. Qed.

Lemma fill_lookup file cs : ∀ a i,
  length a = length file →
  Forall (from_file file) cs →
  fill a cs !! i =
    if decide (i ∈ chunkIndex <$> cs) then Some <$> file !! i else a !! i.
Proof.
  induction cs as [|c cs IH]; intros a i Hlen Hcs.
  - done.
  - apply Forall_cons in Hcs as [Hc Hcs].
    rewrite fmap_cons. unfold fill. cbn [foldl]. fold (fill (array_set a (chunkIndex c) (chunk c)) cs).
    assert (chunkIndex c < length a) as Hlt.
    { rewrite Hlen. by eapply lookup_lt_Some. }
    unfold array_set. rewrite (decide_True _ _ Hlt).
    rewrite IH by (by rewrite ?length_insert).
    destruct (decide (i ∈ chunkIndex <$> cs)) as [Hin|Hin].
    + by rewrite decide_True by (apply elem_of_cons; auto).
    + destruct (decide (i = chunkIndex c)) as [->|Hne].
      * rewrite decide_True by (apply elem_of_cons; auto).
        rewrite list_lookup_insert_eq by done. by rewrite Hc.
      * rewrite decide_False by (rewrite elem_of_cons; tauto).
        by rewrite list_lookup_insert_ne.
Qed.

Lemma fill_permutation file cs :
  chunkIndex <$> cs ≡ₚ seq 0 (length file) →
  Forall (from_file file) cs →
  fill (replicate (length file) None) cs = Some <$> file.
Proof.
  intros Hperm Hcs. apply list_eq. intros i.
  rewrite (fill_lookup file) by (by rewrite ?length_replicate).
  rewrite list_lookup_fmap.
  case_decide as Hin; [done|].
  assert (length file ≤ i) as Hge.
  { destruct (decide (i < length file)) as [Hlt|]; [|lia].
    exfalso. apply Hin. rewrite Hperm. apply elem_of_seq. lia. }
  rewrite lookup_ge_None_2 by (by rewrite length_replicate).
  by rewrite lookup_ge_None_2.
Qed.

Lemma store_chunks_fields t cs :
  let t' := foldl store_chunk t cs in
  fileName t' = fileName t ∧ totalChunks t' = totalChunks t ∧
  receivedChunks t' = receivedChunks t + length cs ∧
  chunks t' = fill (chunks t) cs.
Proof.
  revert t. induction cs as [|c cs IH]; intros t; simpl.
  - repeat split; lia.
  - destruct (IH (store_chunk t c)) as (-> & -> & -> & ->). simpl.
    repeat split; lia.
Qed.

Lemma run_cons s msg l : run s (msg :: l) = run (deliver s msg) l.
Proof. done. Qed.

(** One chunk message that fires no trigger. *)
Lemma deliver_receiving s m t c :
  activeTransfers s = Some m → m !! transferId c = Some t →
  isLast c = false → S (receivedChunks t) ≠ totalChunks t →
  deliver s (FileChunk c) =
    {| activeTransfers := Some (<[transferId c := store_chunk t c]> m);
       effects := effects s ++
         [UpdateProgress (transferId c) (S (receivedChunks t)) (totalChunks t)] |}.
Proof.
  intros Hs Hm Hlast Hne. unfold deliver, receiveFile, handleFileChunk.
  rewrite Hs; cbn [mbind option_bind]. rewrite Hm, Hlast.
  cbn [store_chunk receivedChunks totalChunks orb].
  by rewrite bool_decide_eq_false_2.
Qed.

(** One chunk message that fires a trigger: the session is read,
    reconstructed and removed by a single [completeFileTransfer]. *)
Lemma deliver_completing s m t c :
  activeTransfers s = Some m → m !! transferId c = Some t →
  isLast c = true ∨ S (receivedChunks t) = totalChunks t →
  deliver s (FileChunk c) =
    {| activeTransfers := Some (delete (transferId c) m);
       effects := effects s ++
         [UpdateProgress (transferId c) (S (receivedChunks t)) (totalChunks t);
          Download (join (array_set (chunks t) (chunkIndex c) (chunk c))) (fileName t);
          HideProgress (transferId c);
          Notify (fileName t +:+ " sikeresen fogadva!") "success"] |}.
Proof.
  intros Hs Hm Htrig. unfold deliver, receiveFile, handleFileChunk.
  rewrite Hs; cbn [mbind option_bind]. rewrite Hm.
  cbn [store_chunk receivedChunks totalChunks].
  assert (isLast c || bool_decide (S (receivedChunks t) = totalChunks t) = true) as ->.
  { destruct Htrig as [->| ->]; [done|].
    rewrite bool_decide_eq_true_2 by done. apply orb_true_r. }
  unfold completeFileTransfer. cbn [activeTransfers mbind option_bind].
  rewrite lookup_insert_eq. cbn [default effects chunks fileName store_chunk].
  by rewrite delete_insert_eq, <- app_assoc.
Qed.

(** A chunk message for an id without session changes nothing. *)
Lemma deliver_absent s c :
  sessions s !! transferId c = None → deliver s (FileChunk c) = s.
Proof.
  unfold sessions, deliver, receiveFile, handleFileChunk.
  destruct (activeTransfers s) as [m|]; simpl; [|done].
  by intros ->.
Qed.

(** Receiving phase: while no trigger fires, chunk messages only update
    the session object and the progress widget. *)
Lemma receiving_phase tid cs : ∀ s m t,
  activeTransfers s = Some m → m !! tid = Some t →
  Forall (λ c, transferId c = tid ∧ isLast c = false) cs →
  receivedChunks t + length cs < totalChunks t →
  let s' := run s (FileChunk <$> cs) in
  activeTransfers s' = Some (<[tid := foldl store_chunk t cs]> m) ∧
  downloads (effects s') = downloads (effects s) ∧
  completions tid (effects s') = completions tid (effects s).
Proof.
  induction cs as [|c cs IH]; intros s m t Hs Hm Hcs Hlt.
  - cbn. by rewrite insert_id.
  - apply Forall_cons in Hcs as [[Htid Hlast] Hcs]. cbn [length] in Hlt.
    rewrite fmap_cons. cbn zeta. rewrite run_cons.
    subst tid. rewrite (deliver_receiving s m t c) by (done || lia).
    set (s1 := App _ _).
    destruct (IH s1 (<[transferId c:=store_chunk t c]> m) (store_chunk t c))
      as (Ha & Hd & Hc); [done|by rewrite lookup_insert_eq|done|simpl; lia|].
    cbn zeta in Ha, Hd, Hc. rewrite Ha, Hd, Hc. subst s1. cbn [effects foldl].
    rewrite insert_insert_eq, downloads_app, completions_app.
    rewrite completions_cons, completions_nil, decide_False by done.
    cbn. rewrite app_nil_r.
    split; [done|]. split; [done|lia].
Qed.

Lemma pending_absent tid s : pending tid s = 0 ↔ sessions s !! tid = None.
Proof. unfold pending. destruct (sessions s !! tid); split; done. Qed.

(** Chunk messages for an id without session change nothing. *)
Lemma run_absent tid cs : ∀ s,
  sessions s !! tid = None → Forall (λ c, transferId c = tid) cs →
  run s (FileChunk <$> cs) = s.
Proof.
  induction cs as [|c cs IH]; intros s Habs Hcs; [done|].
  apply Forall_cons in Hcs as [Hc Hcs].
  rewrite fmap_cons, run_cons, deliver_absent by by rewrite Hc.
  by apply IH.
Qed.

(** The whole effect of a batch of chunk messages for a session: one
    progress update per message up to the first that passes the
    completion test, then download, teardown and notification, once;
    the messages after it do nothing. *)
Lemma chunks_log tid cs : ∀ s m t,
  activeTransfers s = Some m → m !! tid = Some t →
  Forall (λ c, transferId c = tid) cs →
  let reached := until_trigger (totalChunks t) (receivedChunks t) cs in
  let s' := run s (FileChunk <$> cs) in
  effects s' = effects s
    ++ ((λ i, UpdateProgress tid (S i) (totalChunks t))
          <$> seq (receivedChunks t) (length reached))
    ++ (if triggered (totalChunks t) (receivedChunks t) cs
        then [Download (join (fill (chunks t) reached)) (fileName t);
              HideProgress tid;
              Notify (fileName t +:+ " sikeresen fogadva!") "success"]
        else []) ∧
  pending tid s' = if triggered (totalChunks t) (receivedChunks t) cs then 0 else 1.
Proof.
  induction cs as [|c cs IH]; intros s m t Hs Hm Hcs.
  - cbn. rewrite app_nil_r. split; [done|].
    unfold pending, sessions. rewrite Hs. simpl. by rewrite Hm.
  - apply Forall_cons in Hcs as [Hc Hcs]. subst tid.
    cbn zeta. rewrite fmap_cons, run_cons.
    cbn [until_trigger triggered].
    destruct (triggers (totalChunks t) (receivedChunks t) c) eqn:Htr; cbn [orb].
    + assert (isLast c = true ∨ S (receivedChunks t) = totalChunks t) as Htrig.
      { unfold triggers in Htr.
        apply orb_true_iff in Htr as [?|?%bool_decide_eq_true]; auto. }
      rewrite (deliver_completing s m t c Hs Hm Htrig).
      rewrite (run_absent (transferId c)); [| |done].
      2:{ unfold sessions. simpl. apply lookup_delete_eq. }
      split.
      * done.
      * unfold pending, sessions. simpl. by rewrite lookup_delete_eq.
    + unfold triggers in Htr.
      apply orb_false_iff in Htr as [Hlast Hcount%bool_decide_eq_false].
      rewrite (deliver_receiving s m t c Hs Hm Hlast Hcount).
      set (s1 := App _ _).
      destruct (IH s1 (<[transferId c := store_chunk t c]> m) (store_chunk t c))
        as [He Hp]; [done|apply lookup_insert_eq|done|].
      cbn zeta in He, Hp. cbn [store_chunk totalChunks receivedChunks fileName chunks] in He, Hp.
      split; [|exact Hp].
      rewrite He. cbn [s1 effects length seq fmap list_fmap].
      rewrite <- !app_assoc. simpl. done.
Qed.

(** Conservation law of chunk handling: a message that is not a start
    for [tid] either leaves the session of [tid] in place and tears
    nothing down, or removes it together with exactly one teardown. *)
Lemma deliver_conserves tid s msg :
  ¬ is_start_of tid msg →
  completions tid (effects (deliver s msg)) + pending tid (deliver s msg)
    = completions tid (effects s) + pending tid s
  ∧ pending tid (deliver s msg) ≤ pending tid s.
Proof.
  intros Hns. destruct msg as [data|c|tid'|data name].
  - cbn in Hns. unfold deliver, pending. simpl. unfold sessions. simpl.
    rewrite lookup_insert_ne by done. rewrite completions_app,
      completions_cons, completions_nil, decide_False by done.
    fold (sessions s). lia.
  - destruct (activeTransfers s) as [m|] eqn:Hs.
    2:{ unfold deliver, receiveFile, handleFileChunk. rewrite Hs. cbn. lia. }
    destruct (m !! transferId c) as [t|] eqn:Hm.
    2:{ rewrite deliver_absent; [lia|]. unfold sessions. by rewrite Hs. }
    destruct (decide (isLast c = true ∨ S (receivedChunks t) = totalChunks t))
      as [Htrig|Hno].
    + rewrite (deliver_completing s m t c) by done.
      unfold pending, sessions. rewrite Hs. simpl.
      rewrite completions_app, !completions_cons, completions_nil.
      destruct (decide (transferId c = tid)) as [<-|Hne].
      * rewrite lookup_delete_eq, Hm.
        repeat case_decide; simplify_eq; lia.
      * rewrite lookup_delete_ne by done.
        repeat case_decide; simplify_eq; destruct (m !! tid); lia.
    + rewrite (deliver_receiving s m t c); [|done|done| |].
      2:{ destruct (isLast c); [|done]. exfalso; auto. }
      2:{ intros Heq; auto. }
      unfold pending, sessions. rewrite Hs. simpl.
      rewrite completions_app, completions_cons, completions_nil,
        decide_False by done.
      destruct (decide (transferId c = tid)) as [<-|Hne].
      * rewrite lookup_insert_eq, Hm. lia.
      * rewrite lookup_insert_ne by done. destruct (m !! tid); lia.
  - unfold deliver; cbn. lia.
  - unfold deliver, pending, sessions. simpl.
    rewrite completions_app, !completions_cons, completions_nil,
      !decide_False by done. lia.
Qed.

Lemma run_conserves tid msgs : ∀ s,
  Forall (λ msg, ¬ is_start_of tid msg) msgs →
  completions tid (effects (run s msgs)) + pending tid (run s msgs)
    = completions tid (effects s) + pending tid s
  ∧ pending tid (run s msgs) ≤ pending tid s.
Proof.
  induction msgs as [|msg msgs IH]; intros s Hns; [cbn; lia|].
  apply Forall_cons in Hns as [Hmsg Hns]. rewrite run_cons.
  destruct (IH (deliver s msg) Hns) as [IH1 IH2].
  destruct (deliver_conserves tid s msg Hmsg) as [H1 H2]. lia.
Qed.

(** A chunk message with the last-chunk flag always ends the session. *)
Lemma deliver_flagged tid s c :
  transferId c = tid → isLast c = true → pending tid (deliver s (FileChunk c)) = 0.
Proof.
  intros <- Hlast. apply pending_absent.
  destruct (sessions s !! transferId c) as [t|] eqn:Hm.
  - unfold sessions in Hm. destruct (activeTransfers s) as [m|] eqn:Hs; [|done].
    cbn in Hm. rewrite (deliver_completing s m t c) by auto.
    unfold sessions; cbn. apply lookup_delete_eq.
  - by rewrite deliver_absent.
Qed.

Lemma run_flagged tid c msgs : ∀ s,
  Forall (λ msg, ¬ is_start_of tid msg) msgs →
  FileChunk c ∈ msgs → transferId c = tid → isLast c = true →
  pending tid (run s msgs) = 0.
Proof.
  induction msgs as [|msg msgs IH]; intros s Hns Hin Htid Hlast.
  - by apply elem_of_nil in Hin.
  - apply Forall_cons in Hns as [Hmsg Hns]. rewrite run_cons.
    apply elem_of_cons in Hin as [<-|Hin]; [|by apply IH].
    pose proof (deliver_flagged tid s c Htid Hlast) as H0.
    destruct (run_conserves tid msgs (deliver s (FileChunk c)) Hns) as [_ Hle].
    lia.
Qed.

(** Once as many chunk messages have arrived as the session still
    misses, the count trigger has ended the session. *)
Lemma run_counted tid msgs : ∀ s m t,
  activeTransfers s = Some m → m !! tid = Some t →
  receivedChunks t < totalChunks t →
  Forall (λ msg, ¬ is_start_of tid msg) msgs →
  totalChunks t - receivedChunks t ≤ chunk_count tid msgs →
  pending tid (run s msgs) = 0.
Proof.
  unfold chunk_count.
  induction msgs as [|msg msgs IH]; intros s m t Hs Hm Hlt Hns Hcount.
  { simpl in Hcount. lia. }
  apply Forall_cons in Hns as [Hmsg Hns]. rewrite run_cons.
  rewrite filter_cons in Hcount.
  destruct msg as [data|c|tid'|data name]; simpl in Hmsg.
  - rewrite decide_False in Hcount by (simpl; tauto).
    eapply (IH (deliver s (TransferStart data)) _ t);
      [unfold deliver; simpl; unfold sessions; rewrite Hs; simpl; reflexivity
      |by rewrite lookup_insert_ne|done|done|done].
  - destruct (decide (transferId c = tid)) as [Htid|Htid].
    + rewrite decide_True in Hcount by done. simpl in Hcount. subst tid.
      destruct (decide (isLast c = true ∨ S (receivedChunks t) = totalChunks t))
        as [Htrig|Hno].
      * assert (pending (transferId c) (deliver s (FileChunk c)) = 0) as H0.
        { rewrite (deliver_completing s m t c) by done.
          apply pending_absent. unfold sessions; simpl. apply lookup_delete_eq. }
        destruct (run_conserves (transferId c) msgs (deliver s (FileChunk c)) Hns)
          as [_ Hle]. lia.
      * assert (isLast c = false) as Hlast.
        { destruct (isLast c); [|done]. exfalso; auto. }
        assert (S (receivedChunks t) ≠ totalChunks t) as Hne by auto.
        rewrite (deliver_receiving s m t c) by done.
        apply (IH _ (<[transferId c := store_chunk t c]> m) (store_chunk t c));
          try done.
        -- apply lookup_insert_eq.
        -- simpl. lia.
        -- simpl. lia.
    + rewrite decide_False in Hcount by done.
      destruct (m !! transferId c) as [t2|] eqn:Hm2.
      2:{ rewrite deliver_absent; [by eapply IH|]. unfold sessions. by rewrite Hs. }
      destruct (decide (isLast c = true ∨ S (receivedChunks t2) = totalChunks t2))
        as [Htrig|Hno].
      * rewrite (deliver_completing s m t2 c) by done.
        apply (IH _ (delete (transferId c) m) t); try done.
        by rewrite lookup_delete_ne.
      * assert (isLast c = false) as Hlast.
        { destruct (isLast c); [|done]. exfalso; auto. }
        assert (S (receivedChunks t2) ≠ totalChunks t2) as Hne by auto.
        rewrite (deliver_receiving s m t2 c) by done.
        apply (IH _ (<[transferId c := store_chunk t2 c]> m) t); try done.
        by rewrite lookup_insert_ne.
  - rewrite decide_False in Hcount by (simpl; tauto).
    unfold deliver; simpl. by eapply IH.
  - rewrite decide_False in Hcount by (simpl; tauto).
    apply (IH _ m t); try done.
Qed.

(** *** The local-server path *)

Lemma run_local_cons s msg l :
  run_local s (msg :: l) = run_local (deliver_local s msg) l.
Proof. done. Qed.

Lemma run_local_app s l1 l2 : run_local s (l1 ++ l2) = run_local (run_local s l1) l2.
Proof. apply foldl_app. Qed.

Lemma deliver_local_receiving s m t c :
  activeTransfers s = Some m → m !! transferId c = Some t →
  S (receivedChunks t) ≠ totalChunks t →
  deliver_local s (LocalFileChunk c) =
    {| activeTransfers := Some (<[transferId c := store_chunk t c]> m);
       effects := effects s ++
         [UpdateProgress (transferId c) (S (receivedChunks t)) (totalChunks t)] |}.
Proof.
  intros Hs Hm Hne. unfold deliver_local, handleLocalFileTransfer, handleLocalFileChunk.
  rewrite Hs; cbn [mbind option_bind]. rewrite Hm.
  cbn [store_chunk receivedChunks totalChunks].
  by rewrite bool_decide_eq_false_2.
Qed.

Lemma deliver_local_completing s m t c :
  activeTransfers s = Some m → m !! transferId c = Some t →
  S (receivedChunks t) = totalChunks t →
  deliver_local s (LocalFileChunk c) =
    {| activeTransfers := Some (delete (transferId c) m);
       effects := effects s ++
         [UpdateProgress (transferId c) (S (receivedChunks t)) (totalChunks t);
          Download (join (array_set (chunks t) (chunkIndex c) (chunk c))) (fileName t);
          HideProgress (transferId c);
          Notify (fileName t +:+ " sikeresen letöltve!") "success"] |}.
Proof.
  intros Hs Hm Htrig. unfold deliver_local, handleLocalFileTransfer, handleLocalFileChunk.
  rewrite Hs; cbn [mbind option_bind]. rewrite Hm.
  cbn [store_chunk receivedChunks totalChunks].
  rewrite bool_decide_eq_true_2 by done.
  unfold completeLocalFileTransfer. cbn [activeTransfers mbind option_bind].
  rewrite lookup_insert_eq. cbn [default effects chunks fileName store_chunk].
  by rewrite delete_insert_eq, <- app_assoc.
Qed.

Lemma local_receiving_phase tid cs : ∀ s m t,
  activeTransfers s = Some m → m !! tid = Some t →
  Forall (λ c, transferId c = tid) cs →
  receivedChunks t + length cs < totalChunks t →
  let s' := run_local s (LocalFileChunk <$> cs) in
  activeTransfers s' = Some (<[tid := foldl store_chunk t cs]> m) ∧
  downloads (effects s') = downloads (effects s).
Proof.
  induction cs as [|c cs IH]; intros s m t Hs Hm Hcs Hlt.
  - cbn. by rewrite insert_id.
  - apply Forall_cons in Hcs as [Htid Hcs]. cbn [length] in Hlt.
    rewrite fmap_cons. cbn zeta. rewrite run_local_cons.
    subst tid. rewrite (deliver_local_receiving s m t c) by (done || lia).
    set (s1 := App _ _).
    destruct (IH s1 (<[transferId c:=store_chunk t c]> m) (store_chunk t c))
      as (Ha & Hd); [done|by rewrite lookup_insert_eq|done|simpl; lia|].
    cbn zeta in Ha, Hd. rewrite Ha, Hd. subst s1. cbn [effects foldl].
    rewrite insert_insert_eq, downloads_app.
    cbn. by rewrite app_nil_r.
Qed.

(** On the local-server path completion has the count trigger only, and
    the reconstruction is the file for every arrival order, whatever
    flags the messages carry. *)
Lemma reorder_invariance_local s d file (pre : list chunk_msg) (lst : chunk_msg) :
  st_totalChunks d = length file →
  chunkIndex <$> (pre ++ [lst]) ≡ₚ seq 0 (length file) →
  Forall (λ c, transferId c = st_transferId d ∧ from_file file c) (pre ++ [lst]) →
  let s' := run_local (handleLocalTransferStart s d)
              (LocalFileChunk <$> (pre ++ [lst])) in
  downloads (effects s') =
    downloads (effects s) ++ [(concat_chunks file, st_fileName d)] ∧
  sessions s' !! st_transferId d = None.
Proof.
  intros Htotal Hperm Hall. cbn zeta.
  assert (length pre + 1 = length file) as Hlen.
  { apply Permutation_length in Hperm.
    by rewrite length_fmap, length_app, length_seq in Hperm. }
  assert (Forall (from_file file) (pre ++ [lst])) as Hfile.
  { eapply Forall_impl; [exact Hall|]. by intros c [_ ?]. }
  apply Forall_app in Hall as [Hall_pre Hall_lst].
  apply Forall_singleton in Hall_lst as [Hlst_tid _].
  set (tid := st_transferId d) in *.
  set (t0 := Transfer (st_fileName d) (st_fileSize d) (st_totalChunks d)
               (replicate (st_totalChunks d) None) 0 (st_from d)).
  set (m0 := <[tid := t0]> (sessions s)).
  destruct (local_receiving_phase tid pre (handleLocalTransferStart s d) m0 t0)
    as (Ha & Hd); [done|apply lookup_insert_eq| |simpl; lia|].
  { eapply Forall_impl; [exact Hall_pre|]. by intros c [? _]. }
  cbn zeta in Ha, Hd.
  destruct (store_chunks_fields t0 pre) as (Hname & Htot & Hrecv & Hchunks).
  cbn zeta in *.
  set (s1 := run_local (handleLocalTransferStart s d) (LocalFileChunk <$> pre)) in *.
  assert (run_local (handleLocalTransferStart s d) (LocalFileChunk <$> pre ++ [lst])
          = deliver_local s1 (LocalFileChunk lst)) as ->.
  { by rewrite fmap_app, run_local_app. }
  rewrite (deliver_local_completing s1 _ (foldl store_chunk t0 pre) lst Ha).
  2:{ rewrite Hlst_tid. apply lookup_insert_eq. }
  2:{ rewrite Hrecv, Htot. simpl. lia. }
  split.
  - cbn [effects]. unfold downloads in *. rewrite omap_app, Hd.
    simpl. rewrite omap_app. simpl. rewrite app_nil_r.
    do 3 f_equal; [|by rewrite Hname].
    rewrite Hchunks.
    change (array_set (fill (chunks t0) pre) (chunkIndex lst) (chunk lst))
      with (fill (fill (chunks t0) pre) [lst]).
    unfold fill. rewrite <- foldl_app. fold (fill (chunks t0) (pre ++ [lst])).
    cbn [t0 chunks]. rewrite Htotal.
    by rewrite (fill_permutation file), join_filled.
  - unfold sessions; cbn. rewrite Hlst_tid. apply lookup_delete_eq.
Qed.

(** Messages only add to the effect log. *)
Lemma deliver_appends s msg : ∃ es, effects (deliver s msg) = effects s ++ es.
Proof.
  assert (∃ es, effects s = effects s ++ es) as Hnil.
  { exists []. by rewrite app_nil_r. }
  destruct msg as [d|c|tid|data name].
  - eexists. reflexivity.
  - destruct (activeTransfers s) as [m|] eqn:Hs.
    2:{ unfold deliver, receiveFile, handleFileChunk. by rewrite Hs. }
    destruct (m !! transferId c) as [t|] eqn:Hm.
    2:{ rewrite deliver_absent; [done|]. unfold sessions. by rewrite Hs. }
    destruct (decide (isLast c = true ∨ S (receivedChunks t) = totalChunks t))
      as [Htrig|Hno].
    + rewrite (deliver_completing s m t c) by done. by eexists.
    + rewrite (deliver_receiving s m t c); [by eexists|done|done| |].
      * destruct (isLast c); [|done]. exfalso; auto.
      * intros Heq; auto.
  - done.
  - eexists. reflexivity.
Qed.

Lemma run_appends msgs : ∀ s, ∃ es, effects (run s msgs) = effects s ++ es.
Proof.
  induction msgs as [|msg msgs IH]; intros s.
  - exists []. by rewrite app_nil_r.
  - rewrite run_cons. destruct (IH (deliver s msg)) as [es2 ->].
    destruct (deliver_appends s msg) as [es1 ->].
    exists (es1 ++ es2). by rewrite app_assoc.
Qed.

(** While the session of [tid] lives, it keeps the name it was declared
    with. *)
Lemma deliver_keeps_name tid s msg t t' :
  ¬ is_start_of tid msg →
  sessions s !! tid = Some t → sessions (deliver s msg) !! tid = Some t' →
  fileName t' = fileName t.
Proof.
  intros Hns Ht. destruct msg as [d|c|tid0|data name].
  - cbn in Hns. unfold deliver, sessions at 1. simpl.
    rewrite lookup_insert_ne by done. fold (sessions s). congruence.
  - destruct (activeTransfers s) as [m|] eqn:Hs.
    2:{ unfold sessions in Ht. by rewrite Hs in Ht. }
    assert (sessions s = m) as Hm by (unfold sessions; by rewrite Hs).
    rewrite Hm in Ht.
    destruct (m !! transferId c) as [t0|] eqn:Hc.
    2:{ rewrite deliver_absent by by rewrite Hm. rewrite Hm. congruence. }
    destruct (decide (isLast c = true ∨ S (receivedChunks t0) = totalChunks t0))
      as [Htrig|Hno].
    + rewrite (deliver_completing s m t0 c) by done. unfold sessions. simpl.
      destruct (decide (transferId c = tid)) as [<-|Hne].
      * by rewrite lookup_delete_eq.
      * rewrite lookup_delete_ne by done. congruence.
    + rewrite (deliver_receiving s m t0 c); [|done|done| |].
      2:{ destruct (isLast c); [|done]. exfalso; auto. }
      2:{ intros Heq; auto. }
      unfold sessions. simpl.
      destruct (decide (transferId c = tid)) as [<-|Hne].
      * rewrite lookup_insert_eq. intros [= <-]. simpl. congruence.
      * rewrite lookup_insert_ne by done. congruence.
  - unfold deliver. simpl. congruence.
  - unfold deliver, sessions at 1. simpl. fold (sessions s). congruence.
Qed.

(** A session leaves the table only with the chunk message that
    completes it: on the peer path ... *)
Lemma deliver_removes s msg k :
  is_Some (sessions s !! k) → sessions (deliver s msg) !! k = None →
  ∃ c t href,
    msg = FileChunk c ∧ transferId c = k ∧ sessions s !! k = Some t ∧
    (isLast c = true ∨ S (receivedChunks t) = totalChunks t) ∧
    effects (deliver s msg) = effects s ++
      [UpdateProgress k (S (receivedChunks t)) (totalChunks t);
       Download href (fileName t);
       HideProgress k;
       Notify (fileName t +:+ " sikeresen fogadva!") "success"].
Proof.
  intros [t0 Hk] Hgone. destruct msg as [d|c|tid|data name].
  - exfalso. revert Hgone. unfold deliver, sessions. simpl.
    destruct (decide (st_transferId d = k)) as [->|Hne].
    + by rewrite lookup_insert_eq.
    + rewrite lookup_insert_ne by done. fold (sessions s). by rewrite Hk.
  - destruct (activeTransfers s) as [m|] eqn:Hs.
    2:{ unfold sessions in Hk. by rewrite Hs in Hk. }
    assert (sessions s = m) as Hm by (unfold sessions; by rewrite Hs).
    rewrite Hm in Hk.
    destruct (m !! transferId c) as [t|] eqn:Hc.
    2:{ exfalso. rewrite deliver_absent in Hgone by by rewrite Hm.
        by rewrite Hm, Hk in Hgone. }
    destruct (isLast c) eqn:Hlast.
    { rewrite (deliver_completing s m t c Hs Hc) in * by by left.
      unfold sessions in Hgone. simpl in Hgone.
      destruct (decide (transferId c = k)) as [Heq|Hne].
      - subst k. exists c, t. eexists. rewrite Hm. split_and!; try done. by left.
      - rewrite lookup_delete_ne in Hgone by done. by rewrite Hk in Hgone. }
    destruct (decide (S (receivedChunks t) = totalChunks t)) as [Hcount|Hcount].
    { rewrite (deliver_completing s m t c Hs Hc) in * by by right.
      unfold sessions in Hgone. simpl in Hgone.
      destruct (decide (transferId c = k)) as [Heq|Hne].
      - subst k. exists c, t. eexists. rewrite Hm. split_and!; try done. by right.
      - rewrite lookup_delete_ne in Hgone by done. by rewrite Hk in Hgone. }
    exfalso. rewrite (deliver_receiving s m t c Hs Hc Hlast Hcount) in Hgone.
    unfold sessions in Hgone. simpl in Hgone.
    destruct (decide (transferId c = k)) as [Heq|Hne].
    + subst k. by rewrite lookup_insert_eq in Hgone.
    + rewrite lookup_insert_ne in Hgone by done. by rewrite Hk in Hgone.
  - exfalso. unfold deliver in Hgone. simpl in Hgone. by rewrite Hk in Hgone.
  - exfalso. unfold deliver, sessions in Hgone. simpl in Hgone.
    fold (sessions s) in Hgone. by rewrite Hk in Hgone.
Qed.


(** Over messages without a second start, a session that is gone in
    the end has left the log one block of download, teardown and
    notification, and no other teardown. *)
Lemma run_block tid msgs : ∀ s t,
  Forall (λ msg, ¬ is_start_of tid msg) msgs →
  sessions s !! tid = Some t →
  sessions (run s msgs) !! tid = None →
  ∃ es1 es2 href,
    effects (run s msgs) = es1
      ++ [Download href (fileName t);
          HideProgress tid;
          Notify (fileName t +:+ " sikeresen fogadva!") "success"]
      ++ es2 ∧
    completions tid es1 = completions tid (effects s) ∧
    completions tid es2 = 0.
Proof.
  induction msgs as [|msg msgs IH]; intros s t Hns Hs Hgone.
  - simpl in Hgone. congruence.
  - apply Forall_cons in Hns as [Hmsg Hns]. rewrite run_cons in *.
    destruct (deliver_conserves tid s msg Hmsg) as [Hcons _].
    unfold pending in Hcons. rewrite Hs in Hcons.
    destruct (sessions (deliver s msg) !! tid) as [t'|] eqn:Hd.
    + pose proof (deliver_keeps_name tid s msg t t' Hmsg Hs Hd) as Hname.
      destruct (IH (deliver s msg) t' Hns Hd Hgone) as (es1 & es2 & href & He & H1 & H2).
      exists es1, es2, href. rewrite <- Hname. split; [done|]. split; [lia|done].
    + destruct (deliver_removes s msg tid) as (c & t0 & href & -> & Htid & Ht0 & _ & He);
        [by eexists|done|].
      assert (t0 = t) as -> by congruence.
      destruct (run_appends msgs (deliver s (FileChunk c))) as [es2 Hes2].
      destruct (run_conserves tid msgs (deliver s (FileChunk c)) Hns) as [Hrun Hle].
      unfold pending in Hrun, Hle. rewrite Hd in Hrun, Hle.
      rewrite Hes2, completions_app in Hrun.
      exists (effects s ++ [UpdateProgress tid (S (receivedChunks t)) (totalChunks t)]),
        es2, href.
      split_and!.
      * rewrite Hes2, He. by rewrite <- !app_assoc.
      * rewrite completions_app, completions_cons, completions_nil,
          decide_False by done. lia.
      * destruct (sessions (run (deliver s (FileChunk c)) msgs) !! tid); lia.
Qed.


End Helpers.

Section Claims.
Implicit Types (s : app) (d : start_msg) (c : chunk_msg) (file : list string).

(** C1 (amended).  A transfer is declared with [N] chunks and the [N]
    chunk messages carrying the distinct indices [0..N-1], each with its
    slice of the file, arrive in any order.  If no message before the
    one arriving last carries the last-chunk flag, exactly one download
    is produced, its content is the concatenation of the chunks in index
    order, and the session is removed. *)
Theorem reorder_invariance_flag_last s d file (pre : list chunk_msg) (lst : chunk_msg) :
  st_totalChunks d = length file →
  chunkIndex <$> (pre ++ [lst]) ≡ₚ seq 0 (length file) →
  Forall (λ c, transferId c = st_transferId d ∧ from_file file c) (pre ++ [lst]) →
  Forall (λ c, isLast c = false) pre →
  let s' := run (handleTransferStart s d) (FileChunk <$> (pre ++ [lst])) in
  downloads (effects s') =
    downloads (effects s) ++ [(concat_chunks file, st_fileName d)] ∧
  sessions s' !! st_transferId d = None.
Proof.
  intros Htotal Hperm Hall Hpre. cbn zeta.
  assert (length pre + 1 = length file) as Hlen.
  { apply Permutation_length in Hperm.
    by rewrite length_fmap, length_app, length_seq in Hperm. }
  assert (Forall (from_file file) (pre ++ [lst])) as Hfile.
  { eapply Forall_impl; [exact Hall|]. by intros c [_ ?]. }
  apply Forall_app in Hall as [Hall_pre Hall_lst].
  apply Forall_singleton in Hall_lst as [Hlst_tid _].
  set (tid := st_transferId d) in *.
  set (t0 := Transfer (st_fileName d) (st_fileSize d) (st_totalChunks d)
               (replicate (st_totalChunks d) None) 0 None).
  set (m0 := <[tid := t0]> (sessions s)).
  destruct (receiving_phase tid pre (handleTransferStart s d) m0 t0)
    as (Ha & Hd & _); [done|apply lookup_insert_eq| |simpl; lia|].
  { apply Forall_forall. intros c Hc.
    rewrite Forall_forall in Hall_pre. rewrite Forall_forall in Hpre.
    split; [by apply Hall_pre | by apply Hpre]. }
  cbn zeta in Ha, Hd.
  destruct (store_chunks_fields t0 pre) as (Hname & Htot & Hrecv & Hchunks).
  cbn zeta in *.
  set (s1 := run (handleTransferStart s d) (FileChunk <$> pre)) in *.
  assert (run (handleTransferStart s d) (FileChunk <$> pre ++ [lst])
          = deliver s1 (FileChunk lst)) as ->.
  { by rewrite fmap_app, run_app. }
  rewrite (deliver_completing s1 _ (foldl store_chunk t0 pre) lst Ha).
  2:{ rewrite Hlst_tid. apply lookup_insert_eq. }
  2:{ right. rewrite Hrecv, Htot. simpl. lia. }
  split.
  - cbn [effects]. unfold downloads in *. rewrite omap_app, Hd.
    simpl. rewrite omap_app. simpl. rewrite app_nil_r.
    do 3 f_equal; [|by rewrite Hname].
    rewrite Hchunks.
    change (array_set (fill (chunks t0) pre) (chunkIndex lst) (chunk lst))
      with (fill (fill (chunks t0) pre) [lst]).
    unfold fill. rewrite <- foldl_app. fold (fill (chunks t0) (pre ++ [lst])).
    cbn [t0 chunks]. rewrite Htotal.
    by rewrite (fill_permutation file), join_filled.
  - unfold sessions; cbn. rewrite Hlst_tid. apply lookup_delete_eq.
Qed.

(** Witness of C1 (amended): the scenario of three chunks arriving in
    the order 1, 0, 2. *)
Lemma reorder_invariance_witness :
  let s' := run (handleTransferStart (App None [])
                   (StartMsg (KNum "1") "photo.png" 3%N 3 None))
              (FileChunk <$> ([ChunkMsg (KNum "1") 1 "b" false;
                               ChunkMsg (KNum "1") 0 "a" false]
                              ++ [ChunkMsg (KNum "1") 2 "c" true])) in
  downloads (effects s') =
    downloads [] ++ [(concat_chunks ["a"; "b"; "c"], "photo.png")] ∧
  sessions s' !! (KNum "1") = None.
Proof.
  apply (reorder_invariance_flag_last (App None [])
           (StartMsg (KNum "1") "photo.png" 3%N 3 None) ["a"; "b"; "c"]
           [ChunkMsg (KNum "1") 1 "b" false; ChunkMsg (KNum "1") 0 "a" false]
           (ChunkMsg (KNum "1") 2 "c" true)).
  - reflexivity.
  - simpl. apply perm_swap.
  - repeat constructor.
  - repeat constructor.
Defined.

(** C1 as stated fails: with two chunks, the chunk of index 1 carries
    the last-chunk flag (as the sender sets it) and arrives first; the
    download then holds only that chunk. *)
Lemma reorder_flag_first_counterexample :
  ∃ s d file (cs : list chunk_msg),
    st_totalChunks d = length file ∧
    chunkIndex <$> cs ≡ₚ seq 0 (length file) ∧
    Forall (λ c, transferId c = st_transferId d ∧ from_file file c) cs ∧
    downloads (effects (run (handleTransferStart s d) (FileChunk <$> cs)))
      = [("b", "photo.png")] ∧
    downloads (effects (run (handleTransferStart s d) (FileChunk <$> cs)))
      ≠ downloads (effects s) ++ [(concat_chunks file, st_fileName d)].
Proof.
  exists (App None []), (StartMsg (KNum "1") "photo.png" 2%N 2 None), ["a"; "b"],
    [ChunkMsg (KNum "1") 1 "b" true; ChunkMsg (KNum "1") 0 "a" false].
  split; [reflexivity|]. split; [simpl; apply perm_swap|].
  split; [repeat constructor|].
  split; [by vm_compute|]. by vm_compute.
Qed.

(** C2.  A transfer start for [tid] that creates a session (its total
    is one that [new Array] accepts) is followed by any messages that
    contain no second start for [tid].  The completion side effects of
    [tid] run at most once: the teardown count grows by one exactly
    when the session has been removed, and by nothing otherwise.  Each
    trigger ends the session, a chunk carrying the last-chunk flag as
    well as the arrival of as many chunk messages as were declared; and
    once the session is gone every further chunk message for [tid],
    whatever trigger it satisfies, changes nothing and produces no
    effect.  When the messages are chunk messages of [tid], the page
    sees exactly this: the progress widget, one progress update for
    each message up to the first that fires a trigger, and then, once,
    the download of the joined slots under the declared name, the
    teardown of the widget and the success notification; nothing for
    the messages that come after.  The link of the download is the join
    of the slots filled by the messages up to the trigger, as long as
    their indices name array elements.  Among other messages, too, a
    session that is gone in the end has left the page exactly one
    block of download, teardown and notification. *)
Theorem completion_runs_once s d (msgs : list peer_msg) :
  array_length_ok (st_totalChunks d) →
  Forall (λ msg, ¬ is_start_of (st_transferId d) msg) msgs →
  let tid := st_transferId d in
  let s' := run (handleTransferStart s d) msgs in
  completions tid (effects s')
    = completions tid (effects s) + (1 - pending tid s') ∧
  (∀ c, FileChunk c ∈ msgs → transferId c = tid → isLast c = true →
        pending tid s' = 0) ∧
  (0 < st_totalChunks d → st_totalChunks d ≤ chunk_count tid msgs →
   pending tid s' = 0) ∧
  (pending tid s' = 0 →
   ∀ c, transferId c = tid → deliver s' (FileChunk c) = s') ∧
  (pending tid s' = 0 →
   ∃ es1 es2 href,
     effects s' = es1
       ++ [Download href (st_fileName d);
           HideProgress tid;
           Notify (st_fileName d +:+ " sikeresen fogadva!") "success"]
       ++ es2 ∧
     completions tid es1 = completions tid (effects s) ∧
     completions tid es2 = 0) ∧
  (∀ cs, msgs = FileChunk <$> cs → Forall (λ c, transferId c = tid) cs →
     let reached := until_trigger (st_totalChunks d) 0 cs in
     ∃ href,
       effects s' = effects s
         ++ [ShowProgress tid (st_fileName d) "receiving" 0 (st_totalChunks d)]
         ++ ((λ i, UpdateProgress tid (S i) (st_totalChunks d))
               <$> seq 0 (length reached))
         ++ (if triggered (st_totalChunks d) 0 cs
             then [Download href (st_fileName d);
                   HideProgress tid;
                   Notify (st_fileName d +:+ " sikeresen fogadva!") "success"]
             else []) ∧
       pending tid s' = (if triggered (st_totalChunks d) 0 cs then 0 else 1) ∧
       (Forall (λ c, array_index_ok (chunkIndex c)) reached →
        href = join (fill (replicate (st_totalChunks d) None) reached))).
Proof.
  intros _ Hns tid s'.
  destruct (run_conserves tid msgs (handleTransferStart s d) Hns) as [Heq Hle].
  fold s' in Heq, Hle.
  assert (pending tid (handleTransferStart s d) = 1) as Hp.
  { unfold pending, sessions. simpl. by rewrite lookup_insert_eq. }
  assert (completions tid (effects (handleTransferStart s d))
          = completions tid (effects s)) as Hc.
  { simpl. rewrite completions_app, completions_cons, completions_nil,
      decide_False by done. lia. }
  split; [lia|]. split_and!.
  - intros c Hin Htid Hlast. by apply (run_flagged tid c).
  - intros Hpos Hcount.
    eapply (run_counted tid msgs (handleTransferStart s d)); try done.
    + simpl. apply lookup_insert_eq.
    + done.
    + simpl. lia.
  - intros Habs c Htid. apply deliver_absent. rewrite Htid.
    by apply pending_absent.
  - intros Habs. apply pending_absent in Habs.
    destruct (run_block tid msgs (handleTransferStart s d)
                (Transfer (st_fileName d) (st_fileSize d) (st_totalChunks d)
                   (replicate (st_totalChunks d) None) 0 None) Hns)
      as (es1 & es2 & href & He & H1 & H2); [|done|].
    { unfold sessions. simpl. apply lookup_insert_eq. }
    exists es1, es2, href. split; [exact He|]. split; [|done].
    by rewrite H1.
  - intros cs Hmsgs Hcs reached.
    set (t0 := Transfer (st_fileName d) (st_fileSize d) (st_totalChunks d)
                 (replicate (st_totalChunks d) None) 0 None).
    destruct (chunks_log tid cs (handleTransferStart s d)
                (<[tid := t0]> (sessions s)) t0) as [He Hpend];
      [done|apply lookup_insert_eq|done|].
    cbn zeta in He, Hpend. cbn [t0 totalChunks receivedChunks fileName chunks] in He, Hpend.
    exists (join (fill (replicate (st_totalChunks d) None) reached)).
    unfold s'. rewrite Hmsgs. split_and!; [|exact Hpend|done].
    rewrite He. cbn [handleTransferStart effects]. by rewrite <- app_assoc.
Qed.

(** Witness of C2: both triggers are met, the count trigger by the
    second chunk and the flag by a third message. *)
Lemma completion_runs_once_witness :
  let d := StartMsg (KNum "1") "photo.png" 2%N 2 None in
  let tid := KNum "1" in
  let msgs := [FileChunk (ChunkMsg (KNum "1") 0 "a" false);
               FileChunk (ChunkMsg (KNum "1") 1 "b" false);
               FileChunk (ChunkMsg (KNum "1") 1 "b" true)] in
  let s' := run (handleTransferStart (App None []) d) msgs in
  completions tid (effects s') = completions tid [] + (1 - pending tid s') ∧
  (∀ c, FileChunk c ∈ msgs → transferId c = tid → isLast c = true →
        pending tid s' = 0) ∧
  (0 < st_totalChunks d → st_totalChunks d ≤ chunk_count tid msgs →
   pending tid s' = 0) ∧
  (pending tid s' = 0 →
   ∀ c, transferId c = tid → deliver s' (FileChunk c) = s') ∧
  (pending tid s' = 0 →
   ∃ es1 es2 href,
     effects s' = es1
       ++ [Download href (st_fileName d);
           HideProgress tid;
           Notify (st_fileName d +:+ " sikeresen fogadva!") "success"]
       ++ es2 ∧
     completions tid es1 = completions tid [] ∧
     completions tid es2 = 0) ∧
  (∀ cs, msgs = FileChunk <$> cs → Forall (λ c, transferId c = tid) cs →
     let reached := until_trigger (st_totalChunks d) 0 cs in
     ∃ href,
       effects s' = effects (App None [])
         ++ [ShowProgress tid (st_fileName d) "receiving" 0 (st_totalChunks d)]
         ++ ((λ i, UpdateProgress tid (S i) (st_totalChunks d))
               <$> seq 0 (length reached))
         ++ (if triggered (st_totalChunks d) 0 cs
             then [Download href (st_fileName d);
                   HideProgress tid;
                   Notify (st_fileName d +:+ " sikeresen fogadva!") "success"]
             else []) ∧
       pending tid s' = (if triggered (st_totalChunks d) 0 cs then 0 else 1) ∧
       (Forall (λ c, array_index_ok (chunkIndex c)) reached →
        href = join (fill (replicate (st_totalChunks d) None) reached))).
Proof.
  apply (completion_runs_once (App None [])
           (StartMsg (KNum "1") "photo.png" 2%N 2 None)).
  - by vm_compute.
  - repeat constructor; simpl; tauto.
Defined.

(** The scenario of C2 evaluated: two chunks reach the count, a third
    message carries the flag; the page sees one download of the two
    chunks, one teardown and one notification. *)
Example completion_runs_once_scenario :
  let d := StartMsg (KNum "1") "photo.png" 2%N 2 None in
  let msgs := [FileChunk (ChunkMsg (KNum "1") 0 "a" false);
               FileChunk (ChunkMsg (KNum "1") 1 "b" false);
               FileChunk (ChunkMsg (KNum "1") 1 "b" true)] in
  effects (run (handleTransferStart (App None []) d) msgs)
  = [ShowProgress (KNum "1") "photo.png" "receiving" 0 2;
     UpdateProgress (KNum "1") 1 2;
     UpdateProgress (KNum "1") 2 2;
     Download "ab" "photo.png";
     HideProgress (KNum "1");
     Notify "photo.png sikeresen fogadva!" "success"].
Proof. by vm_compute. Qed.

(** C10.  Every chunk message for an active session reports a
    received-count one higher than before, whatever the slot at its
    index holds; this is so in [handleFileChunk] and in
    [handleLocalFileChunk].  For a transfer of two chunks, two messages
    that both carry index 0 bring the count to the total: completion
    runs while slot 1 is still empty and the download is the filled slot
    followed by the empty string. *)
Theorem repeated_index_counts :
  (∀ m t c es,
     let s := App (Some (<[transferId c := t]> m)) es in
     UpdateProgress (transferId c) (S (receivedChunks t)) (totalChunks t)
       ∈ effects (deliver s (FileChunk c)) ∧
     UpdateProgress (transferId c) (S (receivedChunks t)) (totalChunks t)
       ∈ effects (deliver_local s (LocalFileChunk c))) ∧
  let d := StartMsg (KNum "1") "photo.png" 2%N 2 None in
  let c1 := ChunkMsg (KNum "1") 0 "a" false in
  let c2 := ChunkMsg (KNum "1") 0 "b" false in
  let s1 := run (handleTransferStart (App None []) d) [FileChunk c1] in
  let l1 := run_local (handleLocalTransferStart (App None []) d) [LocalFileChunk c1] in
  (chunks <$> sessions s1 !! (KNum "1")) = Some [Some "a"; None] ∧
  (receivedChunks <$> sessions s1 !! (KNum "1")) = Some 1 ∧
  downloads (effects (deliver s1 (FileChunk c2)))
    = [(join [Some "b"; None], "photo.png")] ∧
  sessions (deliver s1 (FileChunk c2)) !! (KNum "1") = None ∧
  (chunks <$> sessions l1 !! (KNum "1")) = Some [Some "a"; None] ∧
  downloads (effects (deliver_local l1 (LocalFileChunk c2)))
    = [(join [Some "b"; None], "photo.png")] ∧
  sessions (deliver_local l1 (LocalFileChunk c2)) !! (KNum "1") = None ∧
  join [Some "b"; None] = "b".
Proof.
  split.
  - intros m t c es s. split.
    + unfold deliver, receiveFile, handleFileChunk, completeFileTransfer.
      simpl. rewrite lookup_insert_eq. simpl.
      destruct (isLast c || _); simpl.
      * rewrite lookup_insert_eq. simpl.
        rewrite !elem_of_app, !elem_of_cons. auto.
      * rewrite !elem_of_app, !elem_of_cons. auto.
    + unfold deliver_local, handleLocalFileTransfer, handleLocalFileChunk,
        completeLocalFileTransfer.
      simpl. rewrite lookup_insert_eq. simpl.
      destruct (bool_decide _); simpl.
      * rewrite lookup_insert_eq. simpl.
        rewrite !elem_of_app, !elem_of_cons. auto.
      * rewrite !elem_of_app, !elem_of_cons. auto.
  - by vm_compute.
Qed.

End Claims.

End TransferFacts.

(** * Properties of the server *)

Module RelayFacts.
Import Relay.

Section Helpers.
Implicit Types (s : server) (c : client) (r : room) (msg : out_msg)
  (data : gmap string jsval).

Lemma send_all_nil s : send_all s [] = s.
Proof. destruct s. unfold send_all; simpl. by rewrite app_nil_r. Qed.

Lemma send_all_app s l1 l2 : send_all (send_all s l1) l2 = send_all s (l1 ++ l2).
Proof. unfold send_all; simpl. by rewrite app_assoc. Qed.

Lemma send_send_all s ws msg : send s ws msg = send_all s [(ws, msg)].
Proof. done. Qed.

Lemma broadcast_one_send_all msg ex s acc id :
  broadcast_one msg ex (send_all s acc) id
  = send_all s (acc ++ to_each msg (option_list (recipient s ex id))).
Proof.
  unfold broadcast_one, recipient. case_decide.
  - simpl. by rewrite app_nil_r.
  - simpl. destruct (clients s !! id) as [c|]; simpl.
    + case_decide; simpl.
      * by rewrite send_send_all, send_all_app.
      * by rewrite app_nil_r.
    + by rewrite app_nil_r.
Qed.

Lemma foldl_broadcast msg ex s l : ∀ acc,
  foldl (broadcast_one msg ex) (send_all s acc) l
  = send_all s (acc ++ to_each msg (omap (recipient s ex) l)).
Proof.
  induction l as [|id l IH]; intros acc; simpl.
  - by rewrite app_nil_r.
  - rewrite broadcast_one_send_all, IH. f_equal.
    rewrite <- app_assoc. f_equal.
    destruct (recipient s ex id); simpl; done.
Qed.

(** A broadcast only appends to the log: one copy of the message for
    each socket in [recipients]. *)
Lemma broadcast_send_all s roomId msg ex :
  broadcastToRoom s roomId msg ex = send_all s (to_each msg (recipients s roomId ex)).
Proof.
  unfold broadcastToRoom, recipients.
  destruct (rooms s !! roomId) as [r|]; [|by rewrite send_all_nil].
  rewrite <- (send_all_nil s) at 1. by rewrite foldl_broadcast.
Qed.

Lemma set_add_elem x l : x ∈ set_add x l.
Proof. unfold set_add. case_decide; [done|]. apply elem_of_app. right. by left. Qed.

Lemma set_add_nonempty x l : set_add x l ≠ [].
Proof.
  intros H. pose proof (set_add_elem x l) as Hin.
  rewrite H in Hin. by apply elem_of_nil in Hin.
Qed.

Lemma set_delete_not_elem x l : x ∉ set_delete x l.
Proof. unfold set_delete. rewrite list_elem_of_filter. tauto. Qed.

(** [leaveRoom] and the rooms: the room of [roomId] is either gone or
    has lost [clientId]; the other rooms and the registry stay. *)
Lemma leaveRoom_rooms s clientId roomId :
  clients (leaveRoom s clientId roomId) = clients s ∧
  open_ws (leaveRoom s clientId roomId) = open_ws s ∧
  handlers (leaveRoom s clientId roomId) = handlers s ∧
  (∀ rid, rid ≠ roomId → rooms (leaveRoom s clientId roomId) !! rid = rooms s !! rid) ∧
  (∀ r, rooms (leaveRoom s clientId roomId) !! roomId = Some r →
        (clientId ∉ r_clients r) ∧ r_clients r ≠ []).
Proof.
  unfold leaveRoom. destruct (rooms s !! roomId) as [r0|] eqn:Hr.
  - case_decide as Hlen.
    + simpl. split_and!; try done.
      * intros rid Hne. by rewrite lookup_delete_ne.
      * intros r. by rewrite lookup_delete_eq.
    + rewrite broadcast_send_all. simpl. split_and!; try done.
      * intros rid Hne. by rewrite lookup_insert_ne.
      * intros r. rewrite lookup_insert_eq. intros [= <-]. simpl. split.
        -- apply set_delete_not_elem.
        -- intros Hnil. by rewrite Hnil in Hlen.
  - split_and!; try done. intros r. by rewrite Hr.
Qed.

(** *** Rooms are never empty *)

Lemma leaveRoom_nonempty s clientId roomId :
  rooms_nonempty s → rooms_nonempty (leaveRoom s clientId roomId).
Proof.
  intros Hs rid r Hr.
  destruct (leaveRoom_rooms s clientId roomId) as (_ & _ & _ & Hother & Hsame).
  destruct (decide (rid = roomId)) as [->|Hne].
  - by apply Hsame.
  - rewrite Hother in Hr by done. by eapply Hs.
Qed.

Lemma leave_current_nonempty s clientId c :
  rooms_nonempty s → rooms_nonempty (leave_current s clientId c).
Proof.
  unfold leave_current. destruct (truthy (c_room c)); [|done].
  apply leaveRoom_nonempty.
Qed.

Lemma handleJoinRoom_nonempty s now clientId roomId :
  rooms_nonempty s → rooms_nonempty (handleJoinRoom s now clientId roomId).
Proof.
  intros Hs. unfold handleJoinRoom.
  destruct (clients s !! clientId) as [c|]; [|done].
  cbn zeta. rewrite broadcast_send_all.
  intros rid r. simpl. rewrite lookup_insert. case_decide as Hrid.
  - intros [= <-]. simpl. apply set_add_nonempty.
  - intros Hr. by eapply (leave_current_nonempty s clientId c Hs).
Qed.

Lemma handleCreateRoom_nonempty s now roomId clientId roomName :
  rooms_nonempty s → rooms_nonempty (handleCreateRoom s now roomId clientId roomName).
Proof.
  intros Hs. unfold handleCreateRoom. simpl.
  assert (∀ rid r,
    <[VStr roomId := Room (VStr roomId)
        (if truthy roomName then roomName else VStr ("Room " +:+ roomId))
        [clientId] now (Some clientId)]> (rooms s) !! rid = Some r →
    r_clients r ≠ []) as Hins.
  { intros rid r. rewrite lookup_insert. case_decide.
    - by intros [= <-].
    - intros Hr. by eapply Hs. }
  destruct (clients s !! clientId) as [c|]; intros rid r; simpl; apply Hins.
Qed.

(** The relaying handlers and device discovery do not touch the rooms. *)
Lemma relay_handlers_rooms s clientId data :
  rooms (handleWebRTCSignaling s clientId data) = rooms s ∧
  rooms (handleFileTransfer s clientId data) = rooms s ∧
  rooms (handleDeviceDiscovery s clientId) = rooms s.
Proof.
  unfold handleWebRTCSignaling, handleFileTransfer, handleDeviceDiscovery.
  destruct (clients s !! clientId) as [c|]; [|done].
  split_and!; [| |done].
  - destruct (truthy (c_room c)); [|done]. by rewrite broadcast_send_all.
  - destruct (truthy (c_room c)); simpl; [|done].
    destruct (truthy (field data "targetClient")).
    + destruct (get_client s _) as [target|]; [|done]. by case_decide.
    + by rewrite broadcast_send_all.
Qed.

Lemma handleMessage_nonempty s now fresh clientId data :
  rooms_nonempty s → rooms_nonempty (handleMessage s now fresh clientId data).
Proof.
  intros Hs. unfold handleMessage.
  destruct (relay_handlers_rooms s clientId data) as (Hsig & Hfile & Hdev).
  destruct (clients s !! clientId); [|done]. cbn zeta.
  repeat case_decide; try done.
  - by apply handleJoinRoom_nonempty.
  - by apply handleCreateRoom_nonempty.
  - unfold rooms_nonempty. by rewrite Hsig.
  - unfold rooms_nonempty. by rewrite Hfile.
  - unfold rooms_nonempty. by rewrite Hdev.
Qed.

Lemma handleClientDisconnect_nonempty s clientId :
  rooms_nonempty s → rooms_nonempty (handleClientDisconnect s clientId).
Proof.
  intros Hs. unfold handleClientDisconnect.
  destruct (clients s !! clientId) as [c|]; simpl; [|done].
  by apply leave_current_nonempty.
Qed.

Lemma step_nonempty s e : rooms_nonempty s → rooms_nonempty (step s e).
Proof.
  intros Hs. destruct e as [now [ws fresh ip ua|ws p fresh|ws|ws|ws]]; simpl.
  - done.
  - destruct (handlers s !! ws) as [clientId|]; [|done].
    destruct p as [| |data|]; simpl; try done.
    + by destruct (clients s !! clientId).
    + by apply handleMessage_nonempty.
    + by apply handleMessage_nonempty.
  - done.
  - destruct (handlers s !! ws) as [clientId|]; [|done].
    by apply handleClientDisconnect_nonempty.
  - destruct (handlers s !! ws) as [clientId|]; [|done].
    by apply handleClientDisconnect_nonempty.
Qed.

(** In every state the server can reach, a room that exists has a
    member: [leaveRoom] deletes a room as soon as its member set is
    empty and no handler creates a room without a member. *)
Lemma reachable_rooms_nonempty ip p trace :
  rooms_nonempty (run (new_server ip p) trace).
Proof.
  assert (∀ s, rooms_nonempty s → rooms_nonempty (run s trace)) as Hrun.
  { induction trace as [|e trace IH]; intros s Hs; [done|].
    simpl. apply IH. by apply step_nonempty. }
  apply Hrun. intros rid r. simpl. by rewrite lookup_empty.
Qed.

(** Joining an id that has no room makes a fresh room: the joiner is
    its only member and it has neither name nor creator. *)
Lemma join_creates_fresh_room s now clientId c roomId :
  clients s !! clientId = Some c →
  rooms (leave_current s clientId c) !! roomId = None →
  rooms (handleJoinRoom s now clientId roomId) !! roomId
  = Some (Room roomId VUndef [clientId] now None).
Proof.
  intros Hc Hnone. unfold handleJoinRoom. rewrite Hc. cbn zeta.
  rewrite broadcast_send_all. simpl. rewrite lookup_insert_eq, Hnone. done.
Qed.







Lemma unknown_kind_dropped s now fresh clientId :
  handleMessage s now fresh clientId {[ "type" := VStr "bogus" ]} = s.
Proof.
  unfold handleMessage. destruct (clients s !! clientId); [|done].
  unfold field. rewrite lookup_singleton_eq. simpl.
  repeat match goal with
         | |- context [decide ?P] =>
             rewrite (decide_False (P := P)) by (intros ?; intuition discriminate)
         end.
  done.
Qed.

(** The object relayed for a signaling message: [from] is the sender's
    id only if the message has no [from] of its own; the other fields
    are those of the message. *)
Lemma signaling_message_from clientId data :
  signaling_message clientId data !! "from"
  = Some (default (VStr clientId) (data !! "from")).
Proof.
  unfold signaling_message. destruct (data !! "from") as [v|] eqn:Hv; simpl.
  - by apply lookup_union_Some_l.
  - rewrite lookup_union_r by done.
    rewrite lookup_insert_ne by done. apply lookup_insert_eq.
Qed.

(** Every field of a signaling message is relayed as received. *)
Lemma signaling_message_verbatim clientId data k v :
  data !! k = Some v → signaling_message clientId data !! k = Some v.
Proof. intros Hk. unfold signaling_message. by apply lookup_union_Some_l. Qed.

(** [leave_current] removes the client from the room its reference
    names, when that reference is truthy. *)
Lemma leave_current_rooms s clientId c :
  clients (leave_current s clientId c) = clients s ∧
  (truthy (c_room c) = true →
   ∀ r, rooms (leave_current s clientId c) !! c_room c = Some r →
        clientId ∉ r_clients r).
Proof.
  unfold leave_current. destruct (truthy (c_room c)); [|done].
  destruct (leaveRoom_rooms s clientId (c_room c)) as (Hc & _ & _ & _ & Hr).
  split; [done|]. intros _ r Hlook. by apply Hr.
Qed.

(** [handleJoinRoom] takes the joiner out of the room it was in ... *)
Lemma join_leaves_previous s now clientId c roomId :
  clients s !! clientId = Some c →
  truthy (c_room c) = true → c_room c ≠ roomId →
  ∀ r, rooms (handleJoinRoom s now clientId roomId) !! c_room c = Some r →
       clientId ∉ r_clients r.
Proof.
  intros Hc Htruthy Hne r. unfold handleJoinRoom. rewrite Hc. cbn zeta.
  rewrite broadcast_send_all. simpl. rewrite lookup_insert_ne by done.
  by apply leave_current_rooms.
Qed.

(** ... while [handleCreateRoom] leaves every other room as it is. *)
Lemma create_keeps_previous s now roomId clientId roomName rid :
  rid ≠ VStr roomId →
  rooms (handleCreateRoom s now roomId clientId roomName) !! rid = rooms s !! rid.
Proof.
  intros Hne. unfold handleCreateRoom. simpl.
  destruct (clients s !! clientId); simpl; by rewrite lookup_insert_ne.
Qed.

End Helpers.

Section Claims.
Implicit Types (s : server) (c : client) (r : room) (msg : out_msg)
  (data : gmap string jsval).

(** C3, evaluated at the failing input: a client joins a room and then
    creates one.  [handleCreateRoom] does not leave the old room, so the
    client is in the member sets of both rooms while its room reference
    names the new one only. *)
Theorem create_room_keeps_old_membership :
  let s := run (new_server "10.0.0.1" 8080)
             [(0%N, Connection 1 "client_a" "10.0.0.2" "ua");
              (1%N, Message 1 (join_room "lobby") "r0");
              (2%N, Message 1 (create_room "demo") "r1")] in
  (r_clients <$> rooms s !! VStr "lobby") = Some ["client_a"] ∧
  (r_clients <$> rooms s !! VStr "r1") = Some ["client_a"] ∧
  length (rooms_of s "client_a") = 2 ∧
  (c_room <$> clients s !! "client_a") = Some (VStr "r1").
Proof. by vm_compute. Qed.

(** The same happens with two create-room messages in a row: the client
    stays a member of the first room it created. *)
Example create_room_twice :
  let s := run (new_server "10.0.0.1" 8080)
             [(0%N, Connection 1 "client_a" "10.0.0.2" "ua");
              (1%N, Message 1 (create_room "demo") "r1");
              (2%N, Message 1 (create_room "demo") "r2")] in
  (r_clients <$> rooms s !! VStr "r1") = Some ["client_a"] ∧
  (r_clients <$> rooms s !! VStr "r2") = Some ["client_a"] ∧
  (c_room <$> clients s !! "client_a") = Some (VStr "r2").
Proof. by vm_compute. Qed.

(** C4, evaluated at the failing input: the client of the previous
    scenario disconnects.  The room it created is deleted, but the room
    it had joined before stays in the registry with the departed client
    as its only member, although no registered client is left. *)
Theorem disconnect_leaves_stale_room :
  let s := run (new_server "10.0.0.1" 8080)
             [(0%N, Connection 1 "client_a" "10.0.0.2" "ua");
              (1%N, Message 1 (join_room "lobby") "r0");
              (2%N, Message 1 (create_room "demo") "r1");
              (3%N, Close 1)] in
  clients s = ∅ ∧
  rooms s !! VStr "r1" = None ∧
  (r_clients <$> rooms s !! VStr "lobby") = Some ["client_a"].
Proof. by vm_compute. Qed.

(** The room reference is tested for truthiness before leaving, so a
    room whose id is the empty string is never left: its member
    disconnects and the room stays. *)
Example empty_room_id_never_left :
  let s := run (new_server "10.0.0.1" 8080)
             [(0%N, Connection 1 "client_a" "10.0.0.2" "ua");
              (1%N, Message 1 (join_room "") "r0");
              (2%N, Close 1)] in
  clients s = ∅ ∧
  (r_clients <$> rooms s !! VStr "") = Some ["client_a"].
Proof. by vm_compute. Qed.

(** C5, evaluated at the failing input: alice and bob share a room and
    alice sends an offer whose payload has a [from] field naming
    somebody else; bob receives the message with that [from], not with
    alice's id. *)
Theorem signaling_from_overridden :
  let s := run (new_server "10.0.0.1" 8080)
             [(0%N, Connection 1 "alice" "10.0.0.2" "ua");
              (1%N, Connection 2 "bob" "10.0.0.3" "ua");
              (2%N, Message 1 (join_room "lobby") "r0");
              (3%N, Message 2 (join_room "lobby") "r1")] in
  let data : gmap string jsval :=
    {[ "type" := VStr "webrtc-offer"; "from" := VStr "mallory";
       "offer" := VObj "{...}" ]} in
  let s' := step s (4%N, Message 1 (PObject data) "r2") in
  handlers s !! 1 = Some "alice" ∧
  inbox s' 2 = inbox s 2 ++ [Relayed data] ∧
  data !! "from" = Some (VStr "mallory").
Proof. by vm_compute. Qed.






(** The scenario of the witness, evaluated: A is told that B joined,
    with both in the list, and B is sent a list that holds A only. *)
Example join_room_scenario :
  let s := run (new_server "10.0.0.1" 8080)
             [(0%N, Connection 1 "A" "10.0.0.2" "ua");
              (1%N, Message 1 (create_room "demo") "r1");
              (2%N, Connection 2 "B" "10.0.0.3" "ua")] in
  let s' := step s (3%N, Message 2 (join_room "r1") "r2") in
  (r_clients <$> rooms s' !! VStr "r1") = Some ["A"; "B"] ∧
  inbox s' 1 = inbox s 1 ++ [ClientJoined "B" ["A"; "B"]] ∧
  inbox s' 2 = inbox s 2 ++ [RoomJoined (VStr "r1") ["A"]].
Proof. by vm_compute. Qed.





(** The same reply answers the text [null] from a registered client:
    it parses, but reading its [type] throws. *)
Lemma null_payload_single_error s now fresh ws clientId c :
  handlers s !! ws = Some clientId → clients s !! clientId = Some c →
  step s (now, Message ws PNull fresh) = send s ws (ErrorMsg "Invalid JSON message").
Proof. intros Hws Hc. simpl. rewrite Hws. simpl. by rewrite Hc. Qed.




End Claims.

End RelayFacts.

(** * Properties of the senders *)

Module SharingFacts.
Import Transfer Library Sharing.

Section Strings.
Implicit Types (s : string) (n m : nat) (a : ascii).

Lemma append_cons a s1 s2 : String a s1 +:+ s2 = String a (s1 +:+ s2).
Proof. done. Qed.

Lemma string_take_drop n s : string_take n s +:+ string_drop n s = s.
Proof.
  revert s. induction n as [|n IH]; intros [|a s]; try done.
  cbn [string_take string_drop]. by rewrite append_cons, IH.
Qed.

Lemma string_drop_length n s :
  String.length (string_drop n s) = String.length s - n.
Proof. revert s. induction n as [|n IH]; intros [|a s]; simpl; auto with lia. Qed.

Lemma string_take_length n s :
  String.length (string_take n s) = Nat.min n (String.length s).
Proof. revert s. induction n as [|n IH]; intros [|a s]; simpl; auto with lia. Qed.

Lemma string_take_all n s : String.length s ≤ n → string_take n s = s.
Proof.
  revert s. induction n as [|n IH]; intros [|a s]; simpl; try done; try lia.
  intros Hle. rewrite IH; [done|lia].
Qed.

Lemma string_take_min n s :
  string_take (Nat.min n (String.length s)) s = string_take n s.
Proof.
  revert s. induction n as [|n IH]; intros [|a s]; try done.
  cbn [string_take String.length Nat.min]. by rewrite IH.
Qed.

Lemma string_drop_add n m s :
  string_drop (n + m) s = string_drop m (string_drop n s).
Proof.
  revert s. induction n as [|n IH]; intros [|a s]; simpl; try done.
  by destruct m.
Qed.

Lemma string_take_add n m s :
  string_take (n + m) s = string_take n s +:+ string_take m (string_drop n s).
Proof.
  revert s. induction n as [|n IH]; intros [|a s]; try done.
  - by destruct m.
  - cbn [Nat.add string_take string_drop]. by rewrite append_cons, IH.
Qed.

Lemma string_length_zero s : String.length s = 0 → s = "".
Proof. by destruct s. Qed.

Lemma append_empty_r s : s +:+ "" = s.
Proof. induction s as [|a s IH]; [done|]. by rewrite append_cons, IH. Qed.

Lemma append_assoc s1 s2 s3 : (s1 +:+ s2) +:+ s3 = s1 +:+ (s2 +:+ s3).
Proof. induction s1 as [|a s1 IH]; [done|]. by rewrite !append_cons, IH. Qed.

Lemma concat_chunks_snoc (l : list string) x :
  concat_chunks (l ++ [x]) = concat_chunks l +:+ x.
Proof.
  unfold concat_chunks. induction l as [|y l IH]; cbn [List.app foldr].
  - apply append_empty_r.
  - by rewrite IH, append_assoc.
Qed.

End Strings.

Section Chunking.
Implicit Types (fileData : string) (size i : nat).

(** The chunk at index [i] is the next [size] characters after the
    first [i * size]. *)
Lemma chunk_at_take size fileData i :
  chunk_at size fileData i = string_take size (string_drop (i * size) fileData).
Proof.
  unfold chunk_at, slice.
  rewrite <- (string_take_min size). rewrite string_drop_length.
  f_equal. lia.
Qed.

Lemma concat_first_chunks size fileData k :
  concat_chunks (chunk_at size fileData <$> seq 0 k) = string_take (k * size) fileData.
Proof.
  induction k as [|k IH]; [done|].
  rewrite seq_S, fmap_app. simpl. rewrite concat_chunks_snoc, IH.
  rewrite chunk_at_take, <- string_take_add. f_equal. lia.
Qed.

Lemma ceil_div_covers n d : 0 < d → n ≤ ceil_div n d * d.
Proof.
  intros Hd. unfold ceil_div.
  pose proof (Nat.div_mod_eq (n + d - 1) d) as Hdm.
  pose proof (Nat.mod_upper_bound (n + d - 1) d) as Hlt. nia.
Qed.

Lemma ceil_div_tight n d : 0 < d → 0 < n → (ceil_div n d - 1) * d < n.
Proof.
  intros Hd Hn. unfold ceil_div.
  pose proof (Nat.div_mod_eq (n + d - 1) d) as Hdm.
  pose proof (Nat.mod_upper_bound (n + d - 1) d) as Hlt. nia.
Qed.

Lemma ceil_div_zero n d : 0 < d → ceil_div n d = 0 ↔ n = 0.
Proof.
  intros Hd. split.
  - intros H0. pose proof (ceil_div_covers n d Hd). rewrite H0 in *. lia.
  - intros ->. unfold ceil_div. apply Nat.div_small. lia.
Qed.

Lemma chunkSize_pos : 0 < chunkSize.
Proof. unfold chunkSize. lia. Qed.

Lemma chunk_at_length size fileData i :
  String.length (chunk_at size fileData i)
  = Nat.min size (String.length fileData - i * size).
Proof. by rewrite chunk_at_take, string_take_length, string_drop_length. Qed.

Lemma chunk_indices size tid fileData :
  chunkIndex <$> chunk_messages size tid fileData
  = seq 0 (ceil_div (String.length fileData) size).
Proof.
  unfold chunk_messages. cbn zeta. apply list_eq. intros i.
  rewrite !list_lookup_fmap. by destruct (seq _ _ !! i).
Qed.

Lemma chunk_messages_from_file size tid fileData :
  Forall (λ c, transferId c = tid
               ∧ from_file (chunk_at size fileData
                              <$> seq 0 (ceil_div (String.length fileData) size)) c)
         (chunk_messages size tid fileData).
Proof.
  unfold chunk_messages. cbn zeta. apply Forall_fmap, Forall_seq.
  intros i Hi. simpl. split; [done|]. unfold from_file. simpl.
  rewrite list_lookup_fmap, lookup_seq_lt by lia. done.
Qed.

Lemma concat_all_chunks (fileData : string) :
  concat_chunks (chunk_at chunkSize fileData
                   <$> seq 0 (ceil_div (String.length fileData) chunkSize))
  = fileData.
Proof.
  rewrite concat_first_chunks. apply string_take_all.
  apply ceil_div_covers, chunkSize_pos.
Qed.

End Chunking.

Section Reconstruction.
Implicit Types (s : app) (d : start_msg) (c : chunk_msg) (file : list string).

(** What the receiver makes of a start followed by the chunks of
    [file], one message per index, when only the message that arrives
    last may carry the last-chunk flag. *)
Lemma reconstruction s d file (pre : list chunk_msg) (lst : chunk_msg) :
  st_totalChunks d = length file →
  chunkIndex <$> (pre ++ [lst]) ≡ₚ seq 0 (length file) →
  Forall (λ c, transferId c = st_transferId d ∧ from_file file c) (pre ++ [lst]) →
  Forall (λ c, isLast c = false) pre →
  downloads (effects (run s (TransferStart d :: (FileChunk <$> (pre ++ [lst])))))
  = downloads (effects s) ++ [(concat_chunks file, st_fileName d)] ∧
  sessions (run s (TransferStart d :: (FileChunk <$> (pre ++ [lst]))))
    !! st_transferId d = None.
Proof.
  intros Htotal Hperm Hall Hpre. rewrite TransferFacts.run_cons.
  change (deliver s (TransferStart d)) with (handleTransferStart s d).
  assert (length pre + 1 = length file) as Hlen.
  { apply Permutation_length in Hperm.
    by rewrite length_fmap, length_app, length_seq in Hperm. }
  assert (Forall (from_file file) (pre ++ [lst])) as Hfile.
  { eapply Forall_impl; [exact Hall|]. by intros c [_ ?]. }
  apply Forall_app in Hall as [Hall_pre Hall_lst].
  apply Forall_singleton in Hall_lst as [Hlst_tid _].
  set (tid := st_transferId d) in *.
  set (t0 := Transfer (st_fileName d) (st_fileSize d) (st_totalChunks d)
               (replicate (st_totalChunks d) None) 0 None).
  destruct (TransferFacts.receiving_phase tid pre (handleTransferStart s d)
              (<[tid := t0]> (sessions s)) t0)
    as (Ha & Hd & _); [done|apply lookup_insert_eq| |simpl; lia|].
  { apply Forall_forall. intros c Hc.
    rewrite Forall_forall in Hall_pre. rewrite Forall_forall in Hpre.
    split; [by apply Hall_pre | by apply Hpre]. }
  cbn zeta in Ha, Hd.
  destruct (TransferFacts.store_chunks_fields t0 pre) as (Hname & Htot & Hrecv & Hchunks).
  cbn zeta in *.
  rewrite fmap_app, TransferFacts.run_app.
  set (s1 := run (handleTransferStart s d) (FileChunk <$> pre)) in *.
  change (run s1 (FileChunk <$> [lst])) with (deliver s1 (FileChunk lst)).
  rewrite (TransferFacts.deliver_completing s1 _ (foldl store_chunk t0 pre) lst Ha).
  2:{ rewrite Hlst_tid. apply lookup_insert_eq. }
  2:{ right. rewrite Hrecv, Htot. simpl. lia. }
  split.
  - cbn [effects]. unfold downloads in *. rewrite omap_app, Hd.
    simpl. rewrite omap_app. simpl. rewrite app_nil_r.
    do 3 f_equal; [|by rewrite Hname].
    rewrite Hchunks.
    change (array_set (fill (chunks t0) pre) (chunkIndex lst) (chunk lst))
      with (fill (fill (chunks t0) pre) [lst]).
    unfold fill. rewrite <- foldl_app. fold (fill (chunks t0) (pre ++ [lst])).
    cbn [t0 chunks]. rewrite Htotal.
    by rewrite (TransferFacts.fill_permutation file), TransferFacts.join_filled.
  - unfold sessions; cbn. rewrite Hlst_tid. apply lookup_delete_eq.
Qed.

End Reconstruction.

Section Senders.
Implicit Types (s : app) (img : image) (images : list image).

(** X1.  The sending loop cuts the data into consecutive chunks that
    cover it exactly: their concatenation in index order is the data,
    there is no chunk only for empty data, every chunk is non-empty and
    at most [chunkSize] long, and every chunk but the last is exactly
    [chunkSize] long. *)
Theorem chunks_cover_the_data (fileData : string) :
  let total := ceil_div (String.length fileData) chunkSize in
  concat_chunks (chunk_at chunkSize fileData <$> seq 0 total) = fileData ∧
  (total = 0 ↔ fileData = "") ∧
  (∀ i, i < total →
        0 < String.length (chunk_at chunkSize fileData i) ≤ chunkSize) ∧
  (∀ i, i + 1 < total →
        String.length (chunk_at chunkSize fileData i) = chunkSize).
Proof.
  pose proof chunkSize_pos as Hpos. set (size := chunkSize) in *.
  cbn zeta. set (n := String.length fileData).
  pose proof (ceil_div_covers n size Hpos) as Hcover.
  split_and!.
  - rewrite concat_first_chunks. by apply string_take_all.
  - rewrite ceil_div_zero by done. split.
    + apply string_length_zero.
    + by intros ->.
  - intros i Hi. rewrite chunk_at_length. fold n.
    assert (0 < n) as Hn.
    { destruct (decide (n = 0)) as [H0|]; [|lia].
      apply (ceil_div_zero n size Hpos) in H0. lia. }
    pose proof (ceil_div_tight n size Hpos Hn). nia.
  - intros i Hi. rewrite chunk_at_length. fold n.
    assert (0 < n) as Hn.
    { destruct (decide (n = 0)) as [H0|]; [|lia].
      apply (ceil_div_zero n size Hpos) in H0. lia. }
    pose proof (ceil_div_tight n size Hpos Hn). nia.
Qed.

(** The chunk messages of a non-empty file: all but the last, then the
    last, which alone carries the flag. *)
Lemma chunk_messages_split tid fileData :
  fileData ≠ "" →
  let total := ceil_div (String.length fileData) chunkSize in
  ∃ pre lst,
    chunk_messages chunkSize tid fileData = pre ++ [lst] ∧
    Forall (λ c, isLast c = false) pre.
Proof.
  intros Hne. cbn zeta. unfold chunk_messages. cbn zeta.
  destruct (ceil_div (String.length fileData) chunkSize) as [|k] eqn:Htotal.
  { apply (proj1 (ceil_div_zero _ _ chunkSize_pos)) in Htotal.
    by apply string_length_zero in Htotal. }
  rewrite seq_S, fmap_app. simpl. eexists _, _. split; [done|].
  apply Forall_fmap, Forall_seq. intros i Hi. simpl.
  apply bool_decide_eq_false_2. lia.
Qed.

(** X2.  [sendFile] followed by [receiveFile]: when the image and the
    connection are found and the data is not empty, handing the
    messages [sendFile] emits, in the order it emits them, to
    [receiveFile] produces exactly one download, whose content is the
    data that was sent and whose name is the name that was sent, and
    leaves no session behind. *)
Theorem sendFile_receiveFile_roundtrip images connections tid imageId connectionId
    img s :
  List.find (λ img, bool_decide (img_id img = imageId)) images = Some img →
  connectionId ∈ connections →
  fileData_of img ≠ "" →
  let msgs := (sendFile images connections tid imageId connectionId).1 in
  downloads (effects (run s msgs))
  = downloads (effects s) ++ [(fileData_of img, fileName_of img)] ∧
  sessions (run s msgs) !! tid = None.
Proof.
  intros Himg Hconn Hne. cbn zeta. unfold sendFile. rewrite Himg.
  destruct (List.find (λ peer, bool_decide (peer = connectionId)) connections)
    as [peer|] eqn:Hfind.
  2:{ exfalso. apply list_elem_of_In in Hconn.
      apply (List.find_none _ _ Hfind) in Hconn.
      by rewrite bool_decide_eq_true_2 in Hconn. }
  cbn [fst].
  destruct (chunk_messages_split tid (fileData_of img) Hne) as (pre & lst & Hsplit & Hpre).
  pose proof (chunk_indices chunkSize tid (fileData_of img)) as Hidx.
  pose proof (chunk_messages_from_file chunkSize tid (fileData_of img)) as Hfrom.
  rewrite Hsplit in *.
  set (file := chunk_at chunkSize (fileData_of img)
                 <$> seq 0 (ceil_div (String.length (fileData_of img)) chunkSize)) in *.
  assert (length file = ceil_div (String.length (fileData_of img)) chunkSize) as Hlen.
  { unfold file. by rewrite length_fmap, length_seq. }
  destruct (reconstruction s
    (StartMsg tid (fileName_of img) (Z.to_N (calculateDataUrlSize (fileData_of img)))
       (ceil_div (String.length (fileData_of img)) chunkSize) None)
    file pre lst) as [Hdl Hgone]; try done.
  { by rewrite Hidx, Hlen. }
  cbn [st_transferId st_fileName] in Hdl, Hgone.
  rewrite Hdl, Hgone. split; [|done].
  unfold file. by rewrite concat_all_chunks.
Qed.

(** Witness of X2. *)
Lemma sendFile_receiveFile_roundtrip_witness :
  let img := Image 7 "cat.png" 3 "image/png" 1 1 "data:image/png;base64,AAAA" false None None in
  let images := [Image 3 "dog.png" 3 "image/png" 1 1 "data:image/png;base64,BBBB" true None None; img] in
  let connections := ["peer-a"; "peer-b"] in
  (List.find (λ img, bool_decide (img_id img = 7%N)) images = Some img ∧
   "peer-b" ∈ connections ∧ fileData_of img ≠ "") ∧
  let msgs := (sendFile images connections (KNum "1") 7%N "peer-b").1 in
  downloads (effects (run (App None []) msgs))
  = downloads (effects (App None [])) ++ [(fileData_of img, fileName_of img)] ∧
  sessions (run (App None []) msgs) !! (KNum "1") = None.
Proof.
  split.
  - split_and!; [reflexivity| |by vm_compute].
    apply elem_of_cons. right. apply elem_of_cons. by left.
  - apply (sendFile_receiveFile_roundtrip
             [Image 3 "dog.png" 3 "image/png" 1 1 "data:image/png;base64,BBBB" true None None;
              Image 7 "cat.png" 3 "image/png" 1 1 "data:image/png;base64,AAAA" false None None]
             ["peer-a"; "peer-b"] (KNum "1") 7%N "peer-b"
             (Image 7 "cat.png" 3 "image/png" 1 1 "data:image/png;base64,AAAA" false None None)
             (App None [])).
    + reflexivity.
    + apply elem_of_cons. right. apply elem_of_cons. by left.
    + by vm_compute.
Defined.

(** X3.  Empty data: [sendFile] then emits the start message alone,
    declaring zero chunks; a receiver that is handed it opens a session
    that no message of this transfer will ever complete, and nothing
    is downloaded. *)
Theorem sendFile_empty_data images connections tid imageId connectionId img s :
  List.find (λ img, bool_decide (img_id img = imageId)) images = Some img →
  connectionId ∈ connections →
  fileData_of img = "" →
  let msgs := (sendFile images connections tid imageId connectionId).1 in
  msgs = [TransferStart (StartMsg tid (fileName_of img) 0%N 0 None)] ∧
  downloads (effects (run s msgs)) = downloads (effects s) ∧
  pending tid (run s msgs) = 1.
Proof.
  intros Himg Hconn Hempty. cbn zeta. unfold sendFile. rewrite Himg.
  destruct (List.find (λ peer, bool_decide (peer = connectionId)) connections)
    as [peer|] eqn:Hfind.
  2:{ exfalso. apply list_elem_of_In in Hconn.
      apply (List.find_none _ _ Hfind) in Hconn.
      by rewrite bool_decide_eq_true_2 in Hconn. }
  cbn [fst]. unfold chunk_messages. rewrite Hempty.
  assert (ceil_div (String.length "") chunkSize = 0) as ->.
  { by apply ceil_div_zero; [apply chunkSize_pos|]. }
  split; [done|]. cbn. split.
  - rewrite TransferFacts.downloads_app. cbn. by rewrite app_nil_r.
  - unfold pending, sessions. cbn. by rewrite lookup_insert_eq.
Qed.

(** Witness of X3: the image has an empty source and no processed
    version. *)
Lemma sendFile_empty_data_witness :
  let img := Image 7 "cat.png" 3 "image/png" 1 1 "" false None None in
  (List.find (λ img, bool_decide (img_id img = 7%N)) [img] = Some img ∧
   "peer-b" ∈ ["peer-b"] ∧ fileData_of img = "") ∧
  let msgs := (sendFile [img] ["peer-b"] (KNum "1") 7%N "peer-b").1 in
  msgs = [TransferStart (StartMsg (KNum "1") (fileName_of img) 0%N 0 None)] ∧
  downloads (effects (run (App None []) msgs)) = downloads (effects (App None [])) ∧
  pending (KNum "1") (run (App None []) msgs) = 1.
Proof.
  split.
  - split_and!; [reflexivity| |reflexivity]. apply elem_of_cons. by left.
  - apply (sendFile_empty_data [Image 7 "cat.png" 3 "image/png" 1 1 "" false None None] ["peer-b"]
             (KNum "1") 7%N "peer-b" (Image 7 "cat.png" 3 "image/png" 1 1 "" false None None) (App None [])).
    + reflexivity.
    + apply elem_of_cons. by left.
    + reflexivity.
Defined.

(** X4.  [sendFileViaLocalServer] followed by the receiving app: when
    the socket is open, the image is found and the data is not empty,
    the start message followed by the chunk messages in any order of
    arrival, each relayed with the sender's id attached, makes the
    receiving app download exactly the data that was sent, under the
    name that was sent, and leaves no session behind. *)
Theorem local_transfer_any_order images tid imageId img sender
    (arrival : list local_msg) s :
  List.find (λ img, bool_decide (img_id img = imageId)) images = Some img →
  fileData_of img ≠ "" →
  arrival ≡ₚ drop 1 (sendFileViaLocalServer images true tid imageId).1 →
  let msgs := (sendFileViaLocalServer images true tid imageId).1 in
  let s' := run_local s (relayed_from sender <$> (take 1 msgs ++ arrival)) in
  downloads (effects s')
  = downloads (effects s) ++ [(fileData_of img, fileName_of img)] ∧
  sessions s' !! tid = None.
Proof.
  intros Himg Hne Harr. cbn zeta. revert Harr.
  unfold sendFileViaLocalServer. cbn [negb]. rewrite Himg. cbn [fst].
  set (total := ceil_div (String.length (fileData_of img)) chunkSize).
  set (cms := (λ i, ChunkMsg tid i (chunk_at chunkSize (fileData_of img) i) false)
                <$> seq 0 total).
  assert ((λ i, LocalFileChunk
                  (ChunkMsg tid i (chunk_at chunkSize (fileData_of img) i) false))
            <$> seq 0 total = LocalFileChunk <$> cms) as ->.
  { unfold cms. by rewrite <- list_fmap_compose. }
  cbn [drop take]. rewrite take_0. intros Harr.
  apply Permutation_map_inv in Harr as (cms' & Harr & Hperm).
  change (map LocalFileChunk cms') with (LocalFileChunk <$> cms') in Harr.
  subst arrival.
  set (file := chunk_at chunkSize (fileData_of img) <$> seq 0 total).
  assert (length file = total) as Hlen.
  { unfold file. by rewrite length_fmap, length_seq. }
  assert (chunkIndex <$> cms' ≡ₚ seq 0 (length file)) as Hidx.
  { rewrite <- Hperm, Hlen.
    assert (chunkIndex <$> cms = seq 0 total) as ->; [|done].
    unfold cms. apply list_eq. intros i. rewrite !list_lookup_fmap.
    by destruct (seq 0 total !! i). }
  assert (Forall (λ c, transferId c = tid ∧ from_file file c) cms') as Hall.
  { rewrite <- Hperm. unfold cms. apply Forall_fmap, Forall_seq.
    intros i Hi. simpl. split; [done|]. unfold from_file, file. simpl.
    rewrite list_lookup_fmap, lookup_seq_lt by lia. done. }
  assert (0 < total) as Hpos.
  { destruct (decide (total = 0)) as [H0|]; [|lia].
    apply (proj1 (ceil_div_zero _ _ chunkSize_pos)) in H0.
    by apply string_length_zero in H0. }
  destruct cms' as [|c0 cms0] using rev_ind.
  { apply Permutation_length in Hidx.
    rewrite length_seq, Hlen in Hidx. simpl in Hidx. lia. }
  clear IHcms0.
  assert (relayed_from sender <$> (LocalFileChunk <$> cms0 ++ [c0])
          = LocalFileChunk <$> (cms0 ++ [c0])) as Hrel.
  { rewrite <- list_fmap_compose. done. }
  rewrite fmap_app.
  rewrite Hrel. rewrite fmap_cons, fmap_nil. cbn [List.app].
  rewrite TransferFacts.run_local_cons.
  cbn [relayed_from st_transferId st_fileName st_fileSize st_totalChunks].
  set (d := StartMsg tid (fileName_of img)
              (Z.to_N (calculateDataUrlSize (fileData_of img))) total (Some sender)).
  change (deliver_local s (LocalTransferStart d)) with (handleLocalTransferStart s d).
  destruct (TransferFacts.reorder_invariance_local s d file cms0 c0)
    as [Hdl Hgone]; [by rewrite Hlen|done|done|].
  cbn zeta in Hdl, Hgone. cbn [d st_transferId st_fileName] in Hdl, Hgone.
  rewrite Hdl, Hgone. split; [|done].
  unfold file, total. by rewrite concat_all_chunks.
Qed.

(** Witness of X4. *)
Lemma local_transfer_any_order_witness :
  let img := Image 7 "cat.png" 3 "image/png" 1 1 "data:image/png;base64,AAAA" false None None in
  let arrival :=
    [LocalFileChunk (ChunkMsg (KNum "1") 0 "data:image/png;base64,AAAA" false)] in
  (List.find (λ img, bool_decide (img_id img = 7%N)) [img] = Some img ∧
   fileData_of img ≠ "" ∧
   arrival ≡ₚ drop 1 (sendFileViaLocalServer [img] true (KNum "1") 7%N).1) ∧
  let msgs := (sendFileViaLocalServer [img] true (KNum "1") 7%N).1 in
  let s' := run_local (App None [])
              (relayed_from "alice" <$> (take 1 msgs ++ arrival)) in
  downloads (effects s')
  = downloads (effects (App None [])) ++ [(fileData_of img, fileName_of img)] ∧
  sessions s' !! (KNum "1") = None.
Proof.
  split.
  - split_and!; [reflexivity|by vm_compute|by vm_compute].
  - apply (local_transfer_any_order
             [Image 7 "cat.png" 3 "image/png" 1 1 "data:image/png;base64,AAAA" false None None]
             (KNum "1") 7%N (Image 7 "cat.png" 3 "image/png" 1 1 "data:image/png;base64,AAAA" false None None)
             "alice"
             [LocalFileChunk (ChunkMsg (KNum "1") 0 "data:image/png;base64,AAAA" false)]
             (App None [])).
    + reflexivity.
    + by vm_compute.
    + by vm_compute.
Defined.

(** X5.  Data arriving on an incoming peer connection reaches
    [receiveFile] only when its type is ['file'], and a message of that
    type is always handled as a legacy file; a transfer start, a chunk
    or a transfer-complete message is ignored, so the messages that
    [sendFile] emits change nothing at a peer that receives them through
    [handleIncomingConnection]. *)
Theorem incoming_data_only_legacy s type msg :
  has_type type msg →
  deliver_data s type msg
  = match msg with
    | Legacy data name =>
        if decide (type = "file") then handleLegacyFileReceive s data name else s
    | _ => s
    end.
Proof.
  intros Htype. unfold deliver_data, onConnectionData.
  destruct msg as [d|c|tid|data name]; simpl in Htype.
  - subst type. by rewrite decide_False.
  - subst type. by rewrite decide_False.
  - subst type. by rewrite decide_False.
  - by case_decide.
Qed.

(** Witness of X5: a chunk message, tagged as [sendFile] tags it. *)
Lemma incoming_data_only_legacy_witness :
  let s := handleTransferStart (App None []) (StartMsg (KNum "1") "cat.png" 3%N 1 None) in
  let msg := FileChunk (ChunkMsg (KNum "1") 0 "abc" true) in
  has_type "file_chunk" msg ∧
  deliver_data s "file_chunk" msg
  = match msg with
    | Legacy data name =>
        if decide ("file_chunk" = "file") then handleLegacyFileReceive s data name else s
    | _ => s
    end.
Proof.
  split; [reflexivity|].
  apply (incoming_data_only_legacy
           (handleTransferStart (App None []) (StartMsg (KNum "1") "cat.png" 3%N 1 None))
           "file_chunk" (FileChunk (ChunkMsg (KNum "1") 0 "abc" true))).
  reflexivity.
Defined.

End Senders.

Section DataUrl.
Implicit Types (s header payload rest : string).

Lemma after_char_app c header rest :
  count_char c header = 0 →
  after_char c (header +:+ String c rest) = Some rest.
Proof.
  induction header as [|a header IH]; simpl.
  - by rewrite Ascii.eqb_refl.
  - destruct (Ascii.eqb a c); [done|]. simpl. apply IH.
Qed.

Lemma after_char_none c s : count_char c s = 0 → after_char c s = None.
Proof.
  induction s as [|a s IH]; simpl; [done|].
  destruct (Ascii.eqb a c); [done|]. simpl. apply IH.
Qed.

Lemma before_char_id c s : count_char c s = 0 → before_char c s = s.
Proof.
  induction s as [|a s IH]; simpl; [done|].
  destruct (Ascii.eqb a c); [done|]. simpl. intros H. by rewrite IH.
Qed.

(** X6.  [calculateDataUrlSize] on a data URL [header,payload] whose
    header and payload hold no comma: for a non-empty payload of [n]
    characters, [p] of them equals signs, the result is [3n/4] rounded
    down, minus [p]; so a payload of [4k] characters gives [3k - p].
    A text without comma, and an empty payload, give 0. *)
Theorem data_url_size header payload :
  count_char ","%char header = 0 →
  count_char ","%char payload = 0 →
  calculateDataUrlSize header = 0%Z ∧
  calculateDataUrlSize (header +:+ ",") = 0%Z ∧
  (payload ≠ "" →
   calculateDataUrlSize (header +:+ String ","%char payload)
   = (Z.of_nat (String.length payload * 3 / 4)
      - Z.of_nat (count_char "="%char payload))%Z) ∧
  (∀ k, payload ≠ "" → String.length payload = 4 * k →
        calculateDataUrlSize (header +:+ String ","%char payload)
        = (3 * Z.of_nat k - Z.of_nat (count_char "="%char payload))%Z).
Proof.
  intros Hh Hp.
  assert (payload ≠ "" →
    calculateDataUrlSize (header +:+ String ","%char payload)
    = (Z.of_nat (String.length payload * 3 / 4)
       - Z.of_nat (count_char "="%char payload))%Z) as Hsize.
  { intros Hne. unfold calculateDataUrlSize, second_field.
    rewrite after_char_app by done. simpl. rewrite before_char_id by done.
    by rewrite decide_False. }
  split_and!.
  - unfold calculateDataUrlSize, second_field. by rewrite after_char_none.
  - unfold calculateDataUrlSize, second_field.
    by rewrite (after_char_app ","%char header "").
  - done.
  - intros k Hne Hlen. rewrite Hsize by done. rewrite Hlen.
    replace (4 * k * 3) with (3 * k * 4) by lia.
    rewrite Nat.div_mul by done. lia.
Qed.

(** Witness of X6. *)
Lemma data_url_size_witness :
  let header := "data:image/png;base64" in
  let payload := "iVBORw0KGgo=" in
  (count_char ","%char header = 0 ∧ count_char ","%char payload = 0) ∧
  calculateDataUrlSize header = 0%Z ∧
  calculateDataUrlSize (header +:+ ",") = 0%Z ∧
  (payload ≠ "" →
   calculateDataUrlSize (header +:+ String ","%char payload)
   = (Z.of_nat (String.length payload * 3 / 4)
      - Z.of_nat (count_char "="%char payload))%Z) ∧
  (∀ k, payload ≠ "" → String.length payload = 4 * k →
        calculateDataUrlSize (header +:+ String ","%char payload)
        = (3 * Z.of_nat k - Z.of_nat (count_char "="%char payload))%Z).
Proof.
  split; [by vm_compute|].
  apply (data_url_size "data:image/png;base64" "iVBORw0KGgo="); reflexivity.
Defined.

(** The size is negative for a payload made of one or two equals
    signs. *)
Example data_url_size_negative :
  calculateDataUrlSize "data:,=" = (-1)%Z ∧ calculateDataUrlSize "data:,==" = (-1)%Z.
Proof. by vm_compute. Qed.

End DataUrl.

End SharingFacts.

(** * Further properties of the server *)

Module RelayExtras.
Import Relay RelayObs.

Section Rooms.
Implicit Types (s : server) (c : client) (r : room).

(** The registry of rooms after [leaveRoom], room by room. *)
Lemma leaveRoom_lookup s clientId roomId rid :
  rooms (leaveRoom s clientId roomId) !! rid
  = if decide (rid = roomId)
    then r ← rooms s !! roomId;
         if decide (length (set_delete clientId (r_clients r)) = 0) then None
         else Some (set_room_clients r (set_delete clientId (r_clients r)))
    else rooms s !! rid.
Proof.
  unfold leaveRoom. destruct (rooms s !! roomId) as [r|] eqn:Hr; simpl.
  - destruct (decide (length (set_delete clientId (r_clients r)) = 0)).
    + simpl. case_decide as Hrid.
      * subst. apply lookup_delete_eq.
      * by apply lookup_delete_ne.
    + rewrite RelayFacts.broadcast_send_all. simpl. case_decide as Hrid.
      * subst. apply lookup_insert_eq.
      * by apply lookup_insert_ne.
  - case_decide; [by subst|done].
Qed.




Lemma set_add_nodup x l : NoDup l → NoDup (set_add x l).
Proof.
  intros Hl. unfold set_add. case_decide as Hin; [done|].
  apply NoDup_app. split_and!; [done| |apply NoDup_singleton].
  intros y Hy Hy'. apply list_elem_of_singleton in Hy'. by subst.
Qed.

Lemma set_delete_nodup x l : NoDup l → NoDup (set_delete x l).
Proof. apply NoDup_filter. Qed.

Lemma leaveRoom_nodup s clientId roomId :
  members_nodup s → members_nodup (leaveRoom s clientId roomId).
Proof.
  intros Hs rid r. rewrite leaveRoom_lookup. case_decide as Hrid.
  - destruct (rooms s !! roomId) as [r0|] eqn:Hr0; simpl; [|done].
    case_decide; [done|]. intros [= <-]. simpl.
    apply set_delete_nodup. by eapply Hs.
  - apply Hs.
Qed.

Lemma leave_current_nodup s clientId c :
  members_nodup s → members_nodup (leave_current s clientId c).
Proof.
  unfold leave_current. destruct (truthy (c_room c)); [|done].
  apply leaveRoom_nodup.
Qed.

Lemma handleJoinRoom_nodup s now clientId roomId :
  members_nodup s → members_nodup (handleJoinRoom s now clientId roomId).
Proof.
  intros Hs. unfold handleJoinRoom.
  destruct (clients s !! clientId) as [c|]; [|done].
  cbn zeta. rewrite RelayFacts.broadcast_send_all.
  pose proof (leave_current_nodup s clientId c Hs) as Hs1.
  intros rid r. simpl. rewrite lookup_insert. case_decide as Hrid.
  - intros [= <-]. simpl. apply set_add_nodup.
    destruct (rooms (leave_current s clientId c) !! roomId) as [r0|] eqn:Hr0; simpl.
    + by eapply Hs1.
    + apply NoDup_nil_2.
  - apply Hs1.
Qed.

Lemma handleCreateRoom_nodup s now roomId clientId roomName :
  members_nodup s → members_nodup (handleCreateRoom s now roomId clientId roomName).
Proof.
  intros Hs. unfold handleCreateRoom. simpl.
  assert (∀ rid r,
    <[VStr roomId := Room (VStr roomId)
        (if truthy roomName then roomName else VStr ("Room " +:+ roomId))
        [clientId] now (Some clientId)]> (rooms s) !! rid = Some r →
    NoDup (r_clients r)) as Hins.
  { intros rid r. rewrite lookup_insert. case_decide.
    - intros [= <-]. apply NoDup_singleton.
    - apply Hs. }
  destruct (clients s !! clientId) as [c|]; intros rid r; simpl; apply Hins.
Qed.

Lemma handleMessage_nodup s now fresh clientId data :
  members_nodup s → members_nodup (handleMessage s now fresh clientId data).
Proof.
  intros Hs. unfold handleMessage.
  destruct (RelayFacts.relay_handlers_rooms s clientId data) as (Hsig & Hfile & Hdev).
  destruct (clients s !! clientId); [|done]. cbn zeta.
  repeat case_decide; try done.
  - by apply handleJoinRoom_nodup.
  - by apply handleCreateRoom_nodup.
  - unfold members_nodup. by rewrite Hsig.
  - unfold members_nodup. by rewrite Hfile.
  - unfold members_nodup. by rewrite Hdev.
Qed.

Lemma handleClientDisconnect_nodup s clientId :
  members_nodup s → members_nodup (handleClientDisconnect s clientId).
Proof.
  intros Hs. unfold handleClientDisconnect.
  destruct (clients s !! clientId) as [c|]; simpl; [|done].
  by apply leave_current_nodup.
Qed.

Lemma step_nodup s e : members_nodup s → members_nodup (step s e).
Proof.
  intros Hs. destruct e as [now [ws fresh ip ua|ws p fresh|ws|ws|ws]]; simpl.
  - done.
  - destruct (handlers s !! ws) as [clientId|]; [|done].
    destruct p as [| |data|]; simpl; try done.
    + by destruct (clients s !! clientId).
    + by apply handleMessage_nodup.
    + by apply handleMessage_nodup.
  - done.
  - destruct (handlers s !! ws) as [clientId|]; [|done].
    by apply handleClientDisconnect_nodup.
  - destruct (handlers s !! ws) as [clientId|]; [|done].
    by apply handleClientDisconnect_nodup.
Qed.

(** X7.  In every state the server can reach, over any sequence of
    connections, messages, socket errors and closes, the member list
    of each room of the registry is non-empty and holds no client id
    twice. *)
Theorem reachable_member_lists ip p trace :
  let s := run (new_server ip p) trace in
  ∀ rid r, rooms s !! rid = Some r → r_clients r ≠ [] ∧ NoDup (r_clients r).
Proof.
  intros s rid r Hr. split.
  - by eapply (RelayFacts.reachable_rooms_nonempty ip p trace).
  - assert (∀ s0, members_nodup s0 → members_nodup (run s0 trace)) as Hrun.
    { clear. induction trace as [|e trace IH]; intros s0 Hs0; [done|].
      simpl. apply IH. by apply step_nodup. }
    eapply (Hrun (new_server ip p)); [|exact Hr].
    intros rid' r'. simpl. by rewrite lookup_empty.
Qed.

(** Witness of X7. *)
Lemma reachable_member_lists_witness :
  let s := run (new_server "10.0.0.1" 8080)
             [(0%N, Connection 1 "A" "10.0.0.2" "ua");
              (1%N, Message 1 (create_room "demo") "r1");
              (2%N, Connection 2 "B" "10.0.0.3" "ua");
              (3%N, Message 2 (join_room "r1") "r2")] in
  ∃ r, rooms s !! VStr "r1" = Some r ∧ r_clients r ≠ [] ∧ NoDup (r_clients r).
Proof.
  intros s. eexists. split.
  - vm_compute. reflexivity.
  - apply (reachable_member_lists "10.0.0.1" 8080
             [(0%N, Connection 1 "A" "10.0.0.2" "ua");
              (1%N, Message 1 (create_room "demo") "r1");
              (2%N, Connection 2 "B" "10.0.0.3" "ua");
              (3%N, Message 2 (join_room "r1") "r2")] (VStr "r1")).
    vm_compute. reflexivity.
Defined.

End Rooms.

Section References.
Implicit Types (s : server) (c : client) (r : room).











End References.

Section Disconnect.
Implicit Types (s : server) (c : client).





End Disconnect.

Section Relaying.
Implicit Types (s : server) (c : client) (data : gmap string jsval).

Lemma inbox_send_all s l ws :
  inbox (send_all s l) ws
  = inbox s ws ++ omap (λ '(w, msg), if decide (w = ws) then Some msg else None) l.
Proof. unfold inbox. simpl. apply omap_app. Qed.

Lemma inbox_to_each_other s msg sockets ws :
  ws ∉ sockets → inbox (send_all s (to_each msg sockets)) ws = inbox s ws.
Proof.
  intros Hnot. rewrite inbox_send_all.
  assert (omap (λ '(w, m), if decide (w = ws) then Some m else None)
               (to_each msg sockets) = []) as ->; [|by rewrite app_nil_r].
  unfold to_each. induction sockets as [|w sockets IH]; [done|].
  apply not_elem_of_cons in Hnot as [Hne Hnot]. simpl.
  rewrite decide_False by done. by apply IH.
Qed.

Lemma recipients_registered s roomId ex ws :
  ws ∈ recipients s roomId ex →
  ∃ id c r, rooms s !! roomId = Some r ∧ id ∈ r_clients r ∧ Some id ≠ ex ∧
            clients s !! id = Some c ∧ c_ws c = ws ∧ ws ∈ open_ws s.
Proof.
  unfold recipients. destruct (rooms s !! roomId) as [r|]; [|by intros ?%elem_of_nil].
  intros (id & Hin & Hrec)%list_elem_of_omap. unfold recipient in Hrec.
  case_decide as Hex; [done|].
  destruct (clients s !! id) as [c|] eqn:Hc; simpl in Hrec; [|done].
  case_decide as Hopen; [|done]. injection Hrec as <-.
  by exists id, c, r.
Qed.

(** X10.  [handleWebRTCSignaling] does nothing but send: one copy of
    the relayed object on the socket of every other member of the
    sender's room that is registered and open, in the order of the
    member set; nothing at all when the sender is not registered or
    has no room.  Every field the sender supplied is in the relayed
    object as received; registry, rooms and sockets are untouched. *)
Theorem signaling_only_sends s clientId data :
  handleWebRTCSignaling s clientId data
  = send_all s (to_each (Relayed (signaling_message clientId data))
                  (signaling_targets s clientId)) ∧
  (∀ k v, data !! k = Some v → signaling_message clientId data !! k = Some v) ∧
  (∀ ws, ws ∈ signaling_targets s clientId →
         ∃ id c, id ≠ clientId ∧ clients s !! id = Some c ∧ c_ws c = ws
                 ∧ ws ∈ open_ws s).
Proof.
  split_and!.
  - unfold handleWebRTCSignaling, signaling_targets.
    destruct (clients s !! clientId) as [c|]; [|by rewrite RelayFacts.send_all_nil].
    destruct (truthy (c_room c)); [|by rewrite RelayFacts.send_all_nil].
    apply RelayFacts.broadcast_send_all.
  - intros k v Hk. unfold signaling_message. by apply lookup_union_Some_l.
  - intros ws. unfold signaling_targets.
    destruct (clients s !! clientId) as [c|]; [|by intros ?%elem_of_nil].
    destruct (truthy (c_room c)); [|by intros ?%elem_of_nil].
    intros (id & c' & r & _ & _ & Hex & Hc' & Hws & Hopen)%recipients_registered.
    exists id, c'. split_and!; try done. congruence.
Qed.

(** X11.  A client is never sent its own broadcast: if no other
    registered client uses its socket, neither a signaling message nor
    a file-transfer message without target puts anything on the
    sender's socket. *)
Theorem no_echo_to_sender s clientId c data :
  clients s !! clientId = Some c →
  own_socket s clientId c →
  inbox (handleWebRTCSignaling s clientId data) (c_ws c) = inbox s (c_ws c) ∧
  (truthy (field data "targetClient") = false →
   inbox (handleFileTransfer s clientId data) (c_ws c) = inbox s (c_ws c)).
Proof.
  intros Hc Hown.
  assert (∀ rid, c_ws c ∉ recipients s rid (Some clientId)) as Hnot.
  { intros rid (id & c' & r & _ & _ & Hex & Hc' & Hws & _)%recipients_registered.
    apply Hex. f_equal. by eapply Hown. }
  split.
  - unfold handleWebRTCSignaling. rewrite Hc.
    destruct (truthy (c_room c)); [|done].
    rewrite RelayFacts.broadcast_send_all. by apply inbox_to_each_other.
  - intros Hno. unfold handleFileTransfer. rewrite Hc, Hno.
    destruct (truthy (c_room c)); simpl; [|done].
    rewrite RelayFacts.broadcast_send_all. by apply inbox_to_each_other.
Qed.

(** Witness of X11. *)
Lemma no_echo_to_sender_witness :
  let s := run (new_server "10.0.0.1" 8080)
             [(0%N, Connection 1 "alice" "10.0.0.2" "ua");
              (1%N, Connection 2 "bob" "10.0.0.3" "ua");
              (2%N, Message 1 (join_room "lobby") "r0");
              (3%N, Message 2 (join_room "lobby") "r1")] in
  let c := Client "alice" 1 "10.0.0.2" "ua" 0%N (VStr "lobby") in
  let data : gmap string jsval :=
    {[ "type" := VStr "webrtc-offer"; "offer" := VObj "{...}" ]} in
  (clients s !! "alice" = Some c ∧ own_socket s "alice" c) ∧
  inbox (handleWebRTCSignaling s "alice" data) (c_ws c) = inbox s (c_ws c) ∧
  (truthy (field data "targetClient") = false →
   inbox (handleFileTransfer s "alice" data) (c_ws c) = inbox s (c_ws c)).
Proof.
  assert (own_socket
    (run (new_server "10.0.0.1" 8080)
       [(0%N, Connection 1 "alice" "10.0.0.2" "ua");
        (1%N, Connection 2 "bob" "10.0.0.3" "ua");
        (2%N, Message 1 (join_room "lobby") "r0");
        (3%N, Message 2 (join_room "lobby") "r1")])
    "alice" (Client "alice" 1 "10.0.0.2" "ua" 0%N (VStr "lobby"))) as Hown.
  { intros id c'.
    assert (clients (run (new_server "10.0.0.1" 8080)
       [(0%N, Connection 1 "alice" "10.0.0.2" "ua");
        (1%N, Connection 2 "bob" "10.0.0.3" "ua");
        (2%N, Message 1 (join_room "lobby") "r0");
        (3%N, Message 2 (join_room "lobby") "r1")])
      = {[ "alice" := Client "alice" 1 "10.0.0.2" "ua" 0%N (VStr "lobby");
           "bob" := Client "bob" 2 "10.0.0.3" "ua" 1%N (VStr "lobby") ]}) as ->
      by (by vm_compute).
    intros Hc' Hws. destruct (decide (id = "alice")) as [|Hne]; [done|].
    rewrite lookup_insert_ne in Hc' by done.
    apply lookup_singleton_Some in Hc' as [_ <-]. simpl in Hws. discriminate. }
  split.
  - split; [by vm_compute|exact Hown].
  - apply (no_echo_to_sender
      (run (new_server "10.0.0.1" 8080)
         [(0%N, Connection 1 "alice" "10.0.0.2" "ua");
          (1%N, Connection 2 "bob" "10.0.0.3" "ua");
          (2%N, Message 1 (join_room "lobby") "r0");
          (3%N, Message 2 (join_room "lobby") "r1")])
      "alice" (Client "alice" 1 "10.0.0.2" "ua" 0%N (VStr "lobby"))).
    + by vm_compute.
    + exact Hown.
Defined.

End Relaying.

Section Discovery.
Implicit Types (s : server) (c : client).

Lemma filter_all {A} (P : A → Prop) `{∀ x, Decision (P x)} (l : list A) :
  Forall P l → filter P l = l.
Proof.
  induction 1 as [|x l Hx Hl IH]; [done|].
  rewrite filter_cons, decide_True by done. by rewrite IH.
Qed.

Lemma others_filter (m : gmap string client) clientId c :
  m !! clientId = Some c →
  filter (λ '(id, _), id ≠ clientId) (map_to_list m)
  ≡ₚ map_to_list (delete clientId m).
Proof.
  intros Hc. rewrite <- (map_to_list_delete m clientId c Hc) at 1.
  rewrite filter_cons, decide_False by (simpl; auto).
  rewrite filter_all; [done|].
  apply Forall_forall. intros [k v] Hkv.
  apply elem_of_map_to_list, lookup_delete_Some in Hkv as [Hne _]. simpl. auto.
Qed.

(** X12.  Device discovery answers a registered asker, on its own
    socket only, with the list of all the other registered clients,
    whatever rooms they are in: every other client appears exactly
    once, with its address, connect time and room reference, the asker
    never appears, and the list is one shorter than the client count
    that the same reply reports. *)
Theorem device_discovery_lists_others s clientId c :
  clients s !! clientId = Some c →
  ∃ devices,
    handleDeviceDiscovery s clientId
    = send s (c_ws c) (DeviceList devices (localIP s) (port s) (size (clients s))) ∧
    NoDup (d_id <$> devices) ∧
    (∀ id, id ∈ d_id <$> devices ↔ id ≠ clientId ∧ is_Some (clients s !! id)) ∧
    length devices = size (clients s) - 1 ∧
    (∀ dev, dev ∈ devices →
       ∃ c', clients s !! d_id dev = Some c' ∧ d_ip dev = c_ip c' ∧
             d_connectedAt dev = c_connectedAt c' ∧ d_room dev = c_room c' ∧
             d_name dev = "Device " +:+ String.substring 0 8 (d_id dev)).
Proof.
  intros Hc. unfold handleDeviceDiscovery. rewrite Hc. cbn zeta.
  set (others := filter (λ '(id, _), id ≠ clientId) (map_to_list (clients s))).
  set (mk := λ '(id, info), Device id ("Device " +:+ String.substring 0 8 id)
                              (c_ip info) (c_connectedAt info) (c_room info)).
  assert (d_id <$> (mk <$> others) = others.*1) as Hids.
  { rewrite <- list_fmap_compose. apply list_fmap_ext. by intros _ [k v] _. }
  exists (mk <$> others). split_and!.
  - done.
  - rewrite Hids. apply (sublist_NoDup _ ((map_to_list (clients s)).*1)).
    + apply NoDup_fst_map_to_list.
    + apply fmap_sublist, sublist_filter.
  - intros id. rewrite Hids, list_elem_of_fmap. split.
    + intros ([k v] & -> & Hkv). apply list_elem_of_filter in Hkv as [Hne Hkv].
      apply elem_of_map_to_list in Hkv. simpl in *. by eauto.
    + intros [Hne [v Hv]]. exists (id, v). split; [done|].
      apply list_elem_of_filter. split; [done|]. by apply elem_of_map_to_list.
  - rewrite length_fmap. unfold others.
    rewrite (Permutation_length (others_filter (clients s) clientId c Hc)).
    rewrite length_map_to_list, map_size_delete, Hc. simpl. lia.
  - intros dev (kv & -> & Hkv)%list_elem_of_fmap. destruct kv as [k v].
    apply list_elem_of_filter in Hkv as [_ Hkv].
    apply elem_of_map_to_list in Hkv. exists v. by simpl.
Qed.

(** Witness of X12. *)
Lemma device_discovery_lists_others_witness :
  let s := run (new_server "10.0.0.1" 8080)
             [(0%N, Connection 1 "alice" "10.0.0.2" "ua");
              (1%N, Connection 2 "bob" "10.0.0.3" "ua");
              (2%N, Message 2 (join_room "lobby") "r0")] in
  let c := Client "alice" 1 "10.0.0.2" "ua" 0%N VNull in
  clients s !! "alice" = Some c ∧
  ∃ devices,
    handleDeviceDiscovery s "alice"
    = send s (c_ws c) (DeviceList devices (localIP s) (port s) (size (clients s))) ∧
    NoDup (d_id <$> devices) ∧
    (∀ id, id ∈ d_id <$> devices ↔ id ≠ "alice" ∧ is_Some (clients s !! id)) ∧
    length devices = size (clients s) - 1 ∧
    (∀ dev, dev ∈ devices →
       ∃ c', clients s !! d_id dev = Some c' ∧ d_ip dev = c_ip c' ∧
             d_connectedAt dev = c_connectedAt c' ∧ d_room dev = c_room c' ∧
             d_name dev = "Device " +:+ String.substring 0 8 (d_id dev)).
Proof.
  split; [by vm_compute|].
  apply (device_discovery_lists_others
    (run (new_server "10.0.0.1" 8080)
       [(0%N, Connection 1 "alice" "10.0.0.2" "ua");
        (1%N, Connection 2 "bob" "10.0.0.3" "ua");
        (2%N, Message 2 (join_room "lobby") "r0")])
    "alice" (Client "alice" 1 "10.0.0.2" "ua" 0%N VNull)).
  by vm_compute.
Defined.

End Discovery.

Section Log.
Implicit Types (s : server) (c : client).

Lemma leaveRoom_sent s clientId roomId :
  sent s `prefix_of` sent (leaveRoom s clientId roomId).
Proof.
  unfold leaveRoom. destruct (rooms s !! roomId) as [r|]; [|done].
  case_decide; [done|]. rewrite RelayFacts.broadcast_send_all. simpl.
  by apply prefix_app_r.
Qed.

Lemma leave_current_sent s clientId c :
  sent s `prefix_of` sent (leave_current s clientId c).
Proof.
  unfold leave_current. destruct (truthy (c_room c)); [|done]. apply leaveRoom_sent.
Qed.

Lemma handleMessage_sent s now fresh clientId data :
  sent s `prefix_of` sent (handleMessage s now fresh clientId data).
Proof.
  unfold handleMessage. destruct (clients s !! clientId) as [c0|]; [|done].
  cbn zeta. repeat case_decide.
  - unfold handleJoinRoom. destruct (clients s !! clientId) as [c|]; [|done].
    cbn zeta. rewrite RelayFacts.broadcast_send_all. simpl.
    rewrite <- app_assoc. apply prefix_app_r, leave_current_sent.
  - unfold handleCreateRoom. simpl.
    destruct (clients s !! clientId) as [c|]; simpl; [|done].
    by apply prefix_app_r.
  - unfold handleWebRTCSignaling. destruct (clients s !! clientId) as [c|]; [|done].
    destruct (truthy (c_room c)); [|done].
    rewrite RelayFacts.broadcast_send_all. simpl. by apply prefix_app_r.
  - unfold handleFileTransfer. destruct (clients s !! clientId) as [c|]; [|done].
    destruct (truthy (c_room c)); simpl; [|done].
    destruct (truthy (field data "targetClient")).
    + destruct (get_client s _) as [target|]; [|done].
      case_decide; [|done]. simpl. by apply prefix_app_r.
    + rewrite RelayFacts.broadcast_send_all. simpl. by apply prefix_app_r.
  - unfold handleDeviceDiscovery. destruct (clients s !! clientId) as [c|]; [|done].
    simpl. by apply prefix_app_r.
  - done.
Qed.

Lemma step_sent s e : sent s `prefix_of` sent (step s e).
Proof.
  destruct e as [now [ws fresh ip ua|ws p fresh|ws|ws|ws]]; simpl.
  - by apply prefix_app_r.
  - destruct (handlers s !! ws) as [clientId|]; [|done].
    destruct p as [| |data|]; simpl.
    + by apply prefix_app_r.
    + destruct (clients s !! clientId); [|done]. simpl. by apply prefix_app_r.
    + apply handleMessage_sent.
    + apply handleMessage_sent.
  - done.
  - destruct (handlers s !! ws) as [clientId|]; [|done].
    unfold handleClientDisconnect. simpl.
    destruct (clients s !! clientId) as [c|]; [|done].
    apply (leave_current_sent (close_socket s ws)).
  - destruct (handlers s !! ws) as [clientId|]; [|done].
    unfold handleClientDisconnect. simpl.
    destruct (clients s !! clientId) as [c|]; [|done].
    apply leave_current_sent.
Qed.

Lemma run_sent trace : ∀ s, sent s `prefix_of` sent (run s trace).
Proof.
  induction trace as [|e trace IH]; intros s; [done|].
  simpl. etrans; [apply step_sent|apply IH].
Qed.

(** X13.  Nothing that was sent is ever taken back, and the welcome
    comes first: on a socket that has been sent nothing so far, the
    first message of a new connection is the welcome carrying the
    assigned client id and the server's address and port, whatever
    happens afterwards. *)
Theorem welcome_comes_first s now ws clientId ip userAgent trace :
  inbox s ws = [] →
  let s' := run (step s (now, Connection ws clientId ip userAgent)) trace in
  sent s `prefix_of` sent s' ∧
  ∃ rest, inbox s' ws = Welcome clientId (localIP s) (port s) now :: rest.
Proof.
  intros Hempty s'.
  destruct (run_sent trace (step s (now, Connection ws clientId ip userAgent)))
    as [k Hk]. fold s' in Hk. simpl in Hk.
  split.
  - exists ([(ws, Welcome clientId (localIP s) (port s) now)] ++ k).
    by rewrite Hk, <- app_assoc.
  - unfold inbox in *. rewrite Hk, !omap_app, Hempty. simpl.
    rewrite decide_True by done. by eexists.
Qed.

(** Witness of X13. *)
Lemma welcome_comes_first_witness :
  let s := run (new_server "10.0.0.1" 8080)
             [(0%N, Connection 1 "alice" "10.0.0.2" "ua");
              (1%N, Message 1 (join_room "lobby") "r0")] in
  let trace := [(3%N, Message 2 (join_room "lobby") "r1");
                (4%N, Close 1)] in
  inbox s 2 = [] ∧
  let s' := run (step s (2%N, Connection 2 "bob" "10.0.0.3" "ua")) trace in
  sent s `prefix_of` sent s' ∧
  ∃ rest, inbox s' 2 = Welcome "bob" (localIP s) (port s) 2%N :: rest.
Proof.
  split; [by vm_compute|].
  apply (welcome_comes_first
    (run (new_server "10.0.0.1" 8080)
       [(0%N, Connection 1 "alice" "10.0.0.2" "ua");
        (1%N, Message 1 (join_room "lobby") "r0")])
    2%N 2 "bob" "10.0.0.3" "ua"
    [(3%N, Message 2 (join_room "lobby") "r1"); (4%N, Close 1)]).
  by vm_compute.
Defined.

End Log.

End RelayExtras.

(** * Further properties of the transfer coordinator *)

Module TransferExtras.
Import Transfer.

Section Slots.
Implicit Types (a : list (option string)) (t : transfer) (c : chunk_msg).

Lemma join_app a1 a2 : join (a1 ++ a2) = join a1 +:+ join a2.
Proof.
  unfold join. induction a1 as [|slot a1 IH]; [done|].
  cbn [List.app foldr]. by rewrite IH, SharingFacts.append_assoc.
Qed.

Lemma join_holes n : join (replicate n None) = "".
Proof. unfold join. induction n as [|n IH]; [done|]. cbn. exact IH. Qed.

Lemma array_set_beyond a i v :
  length a ≤ i →
  join (array_set a i v) = join a +:+ v ∧ length (array_set a i v) = S i.
Proof.
  intros Hle. unfold array_set. rewrite decide_False by lia. split.
  - rewrite !join_app, join_holes. unfold join at 3. cbn.
    by rewrite SharingFacts.append_empty_r.
  - rewrite !length_app, length_replicate. simpl. lia.
Qed.

(** X14.  A chunk whose index lies at or beyond the end of the slot
    array, and still names an array element (it is below [2^32 - 1]),
    is not rejected: the array grows up to that index, the count goes up
    by one, and the chunk's content ends up after everything stored so
    far.  If such a message carries the last-chunk flag, the download
    is what the slots held followed by this chunk. *)
Theorem chunk_beyond_the_slots s m t c :
  activeTransfers s = Some m →
  m !! transferId c = Some t →
  length (chunks t) ≤ chunkIndex c →
  array_index_ok (chunkIndex c) →
  join (chunks (store_chunk t c)) = join (chunks t) +:+ chunk c ∧
  length (chunks (store_chunk t c)) = S (chunkIndex c) ∧
  receivedChunks (store_chunk t c) = S (receivedChunks t) ∧
  (isLast c = true →
   downloads (effects (deliver s (FileChunk c)))
   = downloads (effects s) ++ [(join (chunks t) +:+ chunk c, fileName t)]).
Proof.
  intros Hs Hm Hle _.
  destruct (array_set_beyond (chunks t) (chunkIndex c) (chunk c) Hle) as [Hjoin Hlen].
  split_and!; try done.
  intros Hlast. rewrite (TransferFacts.deliver_completing s m t c) by auto.
  cbn [effects]. rewrite TransferFacts.downloads_app, Hjoin.
  unfold downloads at 2. cbn. done.
Qed.

(** Witness of X14: two slots were declared and the chunk carries
    index 5. *)
Lemma chunk_beyond_the_slots_witness :
  let t := Transfer "cat.png" 6%N 2 [Some "ab"; None] 1 None in
  let s := App (Some {[ (KNum "1") := t ]}) [] in
  let c := ChunkMsg (KNum "1") 5 "yz" true in
  (activeTransfers s = Some {[ (KNum "1") := t ]} ∧
   ({[ (KNum "1") := t ]} : gmap key transfer) !! transferId c = Some t ∧
   length (chunks t) ≤ chunkIndex c ∧
   array_index_ok (chunkIndex c)) ∧
  join (chunks (store_chunk t c)) = join (chunks t) +:+ chunk c ∧
  length (chunks (store_chunk t c)) = S (chunkIndex c) ∧
  receivedChunks (store_chunk t c) = S (receivedChunks t) ∧
  (isLast c = true →
   downloads (effects (deliver s (FileChunk c)))
   = downloads (effects s) ++ [(join (chunks t) +:+ chunk c, fileName t)]).
Proof.
  split.
  - split_and!; [reflexivity|reflexivity|simpl; lia|by vm_compute].
  - apply (chunk_beyond_the_slots
             (App (Some {[ (KNum "1") := Transfer "cat.png" 6%N 2 [Some "ab"; None] 1 None ]}) [])
             {[ (KNum "1") := Transfer "cat.png" 6%N 2 [Some "ab"; None] 1 None ]}
             (Transfer "cat.png" 6%N 2 [Some "ab"; None] 1 None)
             (ChunkMsg (KNum "1") 5 "yz" true)).
    + reflexivity.
    + reflexivity.
    + simpl. lia.
    + by vm_compute.
Defined.

End Slots.

Section Cancel.
Implicit Types (s : app) (c : chunk_msg).

Lemma sessions_cancel s tid : sessions (cancelFileTransfer s tid) = delete tid (sessions s).
Proof.
  unfold sessions, cancelFileTransfer. simpl.
  destruct (activeTransfers s) as [m|]; simpl; [done|].
  by rewrite delete_empty.
Qed.

(** X15.  [cancelFileTransfer] removes the session stored under the
    key it is given and no other, and downloads nothing; afterwards
    every chunk message carrying that key is ignored, whatever index
    and flag it carries.  The cancel button of the progress widget does
    not pass the key but its text.  For a transfer whose id is a number,
    as the senders of the app make it, the click therefore leaves the
    session of the transfer in place: the widget is hidden and the
    cancellation is announced, but the chunk messages that follow are
    counted as before, and the first that fires a trigger completes the
    transfer with its download. *)
Theorem cancel_ends_the_transfer s tid (cs : list chunk_msg) :
  Forall (λ c, transferId c = tid) cs →
  let s' := cancelFileTransfer s tid in
  sessions s' !! tid = None ∧
  (∀ tid', tid' ≠ tid → sessions s' !! tid' = sessions s !! tid') ∧
  downloads (effects s') = downloads (effects s) ∧
  run s' (FileChunk <$> cs) = s' ∧
  (∀ text t, tid = KNum text → sessions s !! tid = Some t →
     let b := cancel_click s tid in
     let reached := until_trigger (totalChunks t) (receivedChunks t) cs in
     sessions b !! tid = Some t ∧
     effects b = effects s
       ++ [HideProgress (KStr text); Notify "Fájlátvitel megszakítva" "info"] ∧
     ∃ href,
       effects (run b (FileChunk <$> cs)) = effects b
         ++ ((λ i, UpdateProgress tid (S i) (totalChunks t))
               <$> seq (receivedChunks t) (length reached))
         ++ (if triggered (totalChunks t) (receivedChunks t) cs
             then [Download href (fileName t);
                   HideProgress tid;
                   Notify (fileName t +:+ " sikeresen fogadva!") "success"]
             else [])).
Proof.
  intros Hcs s'. subst s'. rewrite sessions_cancel. split_and!.
  - apply lookup_delete_eq.
  - intros tid' Hne. by apply lookup_delete_ne.
  - simpl. rewrite TransferFacts.downloads_app. unfold downloads at 2. cbn.
    by rewrite app_nil_r.
  - induction Hcs as [|c cs Hc Hcs IH]; [done|].
    rewrite fmap_cons, TransferFacts.run_cons.
    rewrite TransferFacts.deliver_absent; [exact IH|].
    rewrite sessions_cancel, Hc. apply lookup_delete_eq.
  - intros text t -> Ht b reached.
    assert (sessions b !! KNum text = Some t) as Hb.
    { unfold b, cancel_click. rewrite sessions_cancel.
      by rewrite lookup_delete_ne. }
    split; [done|]. split; [done|].
    destruct (activeTransfers b) as [m|] eqn:Hm.
    2:{ unfold sessions in Hb. by rewrite Hm in Hb. }
    assert (m !! KNum text = Some t) as Hmt.
    { unfold sessions in Hb. by rewrite Hm in Hb. }
    destruct (TransferFacts.chunks_log (KNum text) cs b m t Hm Hmt Hcs) as [He _].
    eexists. exact He.
Qed.

(** Witness of X15: two of three chunks have arrived, the cancel button
    is clicked or [cancelFileTransfer] is called with the key, and the
    last chunk arrives with its flag. *)
Lemma cancel_ends_the_transfer_witness :
  let s := run (App None [])
             [TransferStart (StartMsg (KNum "1") "cat.png" 6%N 3 None);
              FileChunk (ChunkMsg (KNum "1") 0 "ab" false);
              FileChunk (ChunkMsg (KNum "1") 1 "cd" false)] in
  let cs := [ChunkMsg (KNum "1") 2 "ef" true] in
  let tid := KNum "1" in
  Forall (λ c, transferId c = tid) cs ∧
  let s' := cancelFileTransfer s tid in
  sessions s' !! tid = None ∧
  (∀ tid', tid' ≠ tid → sessions s' !! tid' = sessions s !! tid') ∧
  downloads (effects s') = downloads (effects s) ∧
  run s' (FileChunk <$> cs) = s' ∧
  (∀ text t, tid = KNum text → sessions s !! tid = Some t →
     let b := cancel_click s tid in
     let reached := until_trigger (totalChunks t) (receivedChunks t) cs in
     sessions b !! tid = Some t ∧
     effects b = effects s
       ++ [HideProgress (KStr text); Notify "Fájlátvitel megszakítva" "info"] ∧
     ∃ href,
       effects (run b (FileChunk <$> cs)) = effects b
         ++ ((λ i, UpdateProgress tid (S i) (totalChunks t))
               <$> seq (receivedChunks t) (length reached))
         ++ (if triggered (totalChunks t) (receivedChunks t) cs
             then [Download href (fileName t);
                   HideProgress tid;
                   Notify (fileName t +:+ " sikeresen fogadva!") "success"]
             else [])).
Proof.
  split; [by repeat constructor|].
  apply (cancel_ends_the_transfer
           (run (App None [])
              [TransferStart (StartMsg (KNum "1") "cat.png" 6%N 3 None);
               FileChunk (ChunkMsg (KNum "1") 0 "ab" false);
               FileChunk (ChunkMsg (KNum "1") 1 "cd" false)])
           (KNum "1") [ChunkMsg (KNum "1") 2 "ef" true]).
  by repeat constructor.
Defined.

(** The scenario of X15 evaluated: after a click on the cancel button
    the last chunk still completes the transfer, and the file is
    downloaded. *)
Example cancel_click_scenario :
  let s := run (App None [])
             [TransferStart (StartMsg (KNum "1") "cat.png" 6%N 3 None);
              FileChunk (ChunkMsg (KNum "1") 0 "ab" false);
              FileChunk (ChunkMsg (KNum "1") 1 "cd" false)] in
  let b := cancel_click s (KNum "1") in
  pending (KNum "1") b = 1 ∧
  downloads (effects (deliver b (FileChunk (ChunkMsg (KNum "1") 2 "ef" true))))
  = [("abcdef", "cat.png")].
Proof. by vm_compute. Qed.

End Cancel.

End TransferExtras.

(** * The image library: checks, sizes and statistics *)

Module LibraryFacts.
Import Library.

Section Checks.

Lemma check_passes f : check f = None ↔ passes f.
Proof.
  unfold check, passes.
  destruct (String.prefix "image/" (f_type f)); simpl;
    [|split; [done|by intros [? _]]].
  destruct (bool_decide_reflect (f_type f ∈ supportedTypes)); simpl;
    [|split; [done|by intros (_ & ? & _)]].
  destruct (N.ltb_spec maxFileSize (f_size f)); [split; [done|lia]|].
  destruct (N.eqb_spec (f_size f) 0); [split; [done|lia]|].
  split; [|done]. intros _. repeat split; [done|lia|lia].
Qed.

Lemma valid_skipped_length files :
  length (filter (λ f, check f = None) files)
  + length (omap (λ f, (λ r, (f, r)) <$> check f) files) = length files.
Proof.
  induction files as [|f files IH]; [done|].
  unfold omap in *. simpl. destruct (check f) eqn:Hc; simpl.
  - rewrite filter_cons_False by congruence. lia.
  - rewrite filter_cons_True by done. simpl. lia.
Qed.

Lemma supported_extension type :
  type ∈ supportedTypes → ∃ ext, extension_of type = Some ext.
Proof.
  unfold supportedTypes. intros H.
  repeat (apply elem_of_cons in H as [->|H]; [by eexists|]).
  by apply elem_of_nil in H.
Qed.

(** X16.  When [processFiles] goes on to load files, these are exactly
    the files of the selection that pass its four tests (an image type,
    a supported one, at most 50 MB, not empty); there is at least one,
    each other file was put aside, the selection had at most 100 files,
    and the sizes of the files to load fit under the storage limit
    together with what is stored. *)
Theorem checked_files_go_on stored files valid skipped :
  processFiles_checks stored files = Proceed valid skipped →
  (∀ f, f ∈ valid ↔ f ∈ files ∧ passes f) ∧
  valid ≠ [] ∧
  length valid + length skipped = length files ∧
  length files ≤ 100 ∧
  (stored + total_size valid ≤ storageLimit)%Z.
Proof.
  unfold processFiles_checks.
  destruct (decide (length files = 0)); [done|].
  destruct (decide (100 < length files)); [done|].
  destruct (decide (length (filter _ files) = 0)) as [|Hne]; [done|].
  destruct (decide (storageLimit < _)%Z); [done|].
  intros [= <- <-]. split_and!.
  - intros f. rewrite list_elem_of_filter, check_passes. tauto.
  - intros Hnil. by rewrite Hnil in Hne.
  - apply valid_skipped_length.
  - lia.
  - lia.
Qed.

Lemma checked_files_go_on_witness :
  let f := File "cat.png" "image/png" 3 in
  let g := File "notes.txt" "text/plain" 9 in
  (∀ x, x ∈ [f] ↔ x ∈ [g; f] ∧ passes x) ∧
  [f] ≠ [] ∧
  length [f] + length [(g, NotImage)] = length [g; f] ∧
  length [g; f] ≤ 100 ∧
  (0 + total_size [f] ≤ storageLimit)%Z.
Proof.
  intros f g.
  apply (checked_files_go_on 0 [g; f] [f] [(g, NotImage)]).
  vm_compute. reflexivity.
Defined.

(** X17.  A file that passes the tests of [processFiles] and decodes
    to a width and a height between 1 and 16384 is always added to the
    library: the statistics update cannot throw for it, the entry goes
    to the end of the list unprocessed, the original size grows by the
    file's size, and the callback ends in [resolve()].  The promise is
    fulfilled by that only if the 30 s timer has not fired before; if
    it has, the promise stays rejected although the image is in the
    library. *)
Theorem checked_file_is_added lib id f width height src :
  passes f →
  (0 < width ≤ 16384)%N → (0 < height ≤ 16384)%N →
  ∃ types',
    updateFileTypeStats (fileTypes lib) (f_type f) (f_size f) = Some types' ∧
    addImage_onload lib id f width height src =
      (Lib (images lib ++
              [Image id (f_name f) (f_size f) (f_type f) width height src
                 false None None])
         (originalSize lib + Z.of_N (f_size f))%Z
         (compressedSize lib) types', true) ∧
    ∀ timer_fired,
      addImage_promise timer_fired lib id f width height src
      = if timer_fired then Rejected else Fulfilled.
Proof.
  intros (_ & Hsup & _) Hw Hh.
  destruct (supported_extension _ Hsup) as [ext Hext].
  unfold addImage_promise, addImage_onload, updateFileTypeStats.
  rewrite Hext. simpl.
  rewrite decide_False by lia. rewrite decide_False by lia.
  eexists. split_and!; [reflexivity..|]. by intros [].
Qed.

Lemma checked_file_is_added_witness :
  let f := File "cat.png" "image/png" 3 in
  let src := "data:image/png;base64,AAAA" in
  ∃ types',
    updateFileTypeStats ∅ "image/png" 3 = Some types' ∧
    addImage_onload empty_library 7 f 640 480 src =
      (Lib [Image 7 "cat.png" 3 "image/png" 640 480 src false None None]
         3 0 types', true) ∧
    ∀ timer_fired,
      addImage_promise timer_fired empty_library 7 f 640 480 src
      = if timer_fired then Rejected else Fulfilled.
Proof.
  intros f src.
  apply (checked_file_is_added empty_library 7 f 640 480
           "data:image/png;base64,AAAA").
  - unfold passes. split_and!.
    + reflexivity.
    + apply (bool_decide_unpack _). by vm_compute.
    + by vm_compute.
    + by vm_compute.
  - lia.
  - lia.
Defined.

End Checks.

Section Sizes.

Lemma sum_sizes_app l1 l2 : sum_sizes (l1 ++ l2) = (sum_sizes l1 + sum_sizes l2)%Z.
Proof. induction l1 as [|img l1 IH]; simpl; [done|]. unfold sum_sizes in *. simpl. lia. Qed.

Lemma take_out_sizes imageId l img rest :
  take_out imageId l = Some (img, rest) →
  sum_sizes l = (Z.of_N (img_size img) + sum_sizes rest)%Z.
Proof.
  revert img rest. induction l as [|x l IH]; intros img rest; simpl; [done|].
  destruct (decide (img_id x = imageId)).
  - by intros [= <- <-].
  - destruct (take_out imageId l) as [[found rest']|] eqn:Ht; simpl; [|done].
    intros [= <- <-]. unfold sum_sizes in *. simpl.
    rewrite (IH _ _ eq_refl). lia.
Qed.

Lemma take_out_Forall (P : image → Prop) imageId l img rest :
  take_out imageId l = Some (img, rest) → Forall P l → Forall P rest.
Proof.
  revert img rest. induction l as [|x l IH]; intros img rest; simpl; [done|].
  destruct (decide (img_id x = imageId)).
  - intros [= <- <-] H. by inversion H.
  - destruct (take_out imageId l) as [[found rest']|] eqn:Ht; simpl; [|done].
    intros [= <- <-] H. inversion H; subst. constructor; [done|]. by eapply IH.
Qed.

Lemma mark_processed_sizes imageId dataUrl size l :
  sum_sizes (mark_processed imageId dataUrl size l) = sum_sizes l.
Proof.
  induction l as [|x l IH]; simpl; [done|].
  destruct (decide (img_id x = imageId)); [done|].
  unfold sum_sizes in *. simpl. by rewrite IH.
Qed.

Lemma mark_processed_dimensions imageId dataUrl size l :
  Forall dimensions_ok l →
  Forall dimensions_ok (mark_processed imageId dataUrl size l).
Proof.
  induction 1 as [|x l Hx Hl IH]; simpl; [done|].
  destruct (decide (img_id x = imageId)); constructor; done.
Qed.

Lemma lib_step_ok lib op : library_ok lib → library_ok (lib_step lib op).
Proof.
  intros [Hsum Hdim]. destruct op as [id f width height src|imageId dataUrl size|imageId];
    simpl.
  - unfold addImage_onload.
    destruct (decide (width = 0%N ∨ height = 0%N)); [done|].
    destruct (decide (16384 < width ∨ 16384 < height)%N); [done|].
    assert (library_ok (Lib (images lib ++
              [Image id (f_name f) (f_size f) (f_type f) width height src
                 false None None])
              (originalSize lib + Z.of_N (f_size f))%Z (compressedSize lib)
              (fileTypes lib))) as [Hs Hd].
    { split; simpl.
      - rewrite sum_sizes_app, Hsum. unfold sum_sizes. simpl. lia.
      - apply Forall_app. split; [done|]. constructor; [|done].
        unfold dimensions_ok. simpl. lia. }
    by destruct (updateFileTypeStats _ _ _).
  - split; simpl.
    + by rewrite mark_processed_sizes.
    + by apply mark_processed_dimensions.
  - unfold removeImage.
    destruct (take_out imageId (images lib)) as [[img rest]|] eqn:Ht; [|done].
    split; simpl.
    + rewrite Hsum, (take_out_sizes _ _ _ _ Ht). lia.
    + by eapply take_out_Forall.
Qed.

Lemma lib_run_ok lib ops : library_ok lib → library_ok (lib_run lib ops).
Proof.
  revert lib. induction ops as [|op ops IH]; intros lib H; [done|].
  apply IH. by apply lib_step_ok.
Qed.

(** X18.  Whatever images are loaded, processed and removed, in any
    order, the original size that is stored is the sum of the sizes of
    the images in the library, and every image in it has a width and a
    height between 1 and 16384. *)
Theorem original_size_is_the_sum ops :
  let lib := lib_run empty_library ops in
  originalSize lib = sum_sizes (images lib) ∧
  Forall dimensions_ok (images lib).
Proof. apply lib_run_ok. by split. Qed.

Lemma loads_bounded lib (loads : list (N * file * N * N * string)) :
  (originalSize lib ≤ originalSize (lib_run lib (load <$> loads))
   ≤ originalSize lib + total_size (loaded_file <$> loads))%Z.
Proof.
  revert lib. induction loads as [|[[[[id f] width] height] src] loads IH];
    intros lib; simpl; [lia|].
  specialize (IH (addImage_onload lib id f width height src).1).
  assert (originalSize (addImage_onload lib id f width height src).1
          = originalSize lib ∨
          originalSize (addImage_onload lib id f width height src).1
          = (originalSize lib + Z.of_N (f_size f))%Z) as Hstep.
  { unfold addImage_onload.
    destruct (decide (width = 0%N ∨ height = 0%N)); [by left|].
    destruct (decide (16384 < width ∨ 16384 < height)%N); [by left|].
    destruct (updateFileTypeStats _ _ _); by right. }
  unfold lib_run, fmap in *. simpl in *. destruct Hstep as [-> | ->] in IH; lia.
Qed.

(** X19.  A selection that [processFiles] accepts does not take the
    original size over the storage limit: when its files are loaded one
    after the other from the library that was checked, whichever of
    them load and whichever are rejected, the stored size ends between
    what it was and the limit. *)
Theorem accepted_batch_fits lib files valid skipped
    (loads : list (N * file * N * N * string)) :
  processFiles_checks (originalSize lib) files = Proceed valid skipped →
  loaded_file <$> loads = valid →
  (originalSize lib ≤ originalSize (lib_run lib (load <$> loads))
   ≤ storageLimit)%Z.
Proof.
  unfold processFiles_checks.
  destruct (decide (length files = 0)); [done|].
  destruct (decide (100 < length files)); [done|].
  destruct (decide (length (filter _ files) = 0)); [done|].
  destruct (decide (storageLimit < _)%Z) as [|Hfit]; [done|].
  intros [= <- <-] Hloads.
  pose proof (loads_bounded lib loads) as Hb. rewrite Hloads in Hb. lia.
Qed.

Lemma accepted_batch_fits_witness :
  let f := File "cat.png" "image/png" 3 in
  let g := File "big.png" "image/png" 5 in
  let loads := [(7%N, f, 640%N, 480%N, "data:,AAAA"); (8%N, g, 0%N, 0%N, "data:,")] in
  (0 ≤ originalSize (lib_run empty_library (load <$> loads)) ≤ storageLimit)%Z.
Proof.
  intros f g loads.
  apply (accepted_batch_fits empty_library [f; g] [f; g] [] loads).
  - vm_compute. reflexivity.
  - reflexivity.
Defined.

Lemma take_out_marked imageId dataUrl size l :
  imageId ∈ img_id <$> l →
  ∃ img rest, take_out imageId (mark_processed imageId dataUrl size l)
              = Some (img, rest) ∧ img_processedSize img = Some size.
Proof.
  induction l as [|x l IH]; simpl.
  - intros H. by apply elem_of_nil in H.
  - intros H. destruct (decide (img_id x = imageId)) as [Heq|Hne]; simpl.
    + rewrite decide_True by done. by eexists _, _.
    + rewrite decide_False by done.
      apply elem_of_cons in H as [H|H]; [done|].
      destruct (IH H) as (img & rest & -> & Hp). simpl. by eexists _, _.
Qed.

(** X20.  Removing an image takes off the compressed size only what
    its latest processing added: processing an image of the library
    (again) and then removing it leaves the compressed size as it was
    before that processing, so what an earlier processing of the same
    image added stays counted. *)
Theorem removal_subtracts_latest_size lib imageId dataUrl size :
  imageId ∈ img_id <$> images lib →
  compressedSize (removeImage (processed_onload lib imageId dataUrl size) imageId)
  = compressedSize lib.
Proof.
  intros H.
  destruct (take_out_marked imageId dataUrl size _ H) as (img & rest & Ht & Hp).
  unfold removeImage, processed_onload. simpl. rewrite Ht. simpl. rewrite Hp.
  destruct (decide (size = 0%N)) as [->|]; lia.
Qed.

Lemma removal_subtracts_latest_size_witness :
  let lib := Lib [Image 7 "cat.png" 3 "image/png" 1 1 "data:,AAAA" true
                    (Some 2%N) (Some "data:,AA")] 3 2 ∅ in
  compressedSize (removeImage (processed_onload lib 7 "data:,A" 1) 7) = 2%Z.
Proof.
  intros lib. apply (removal_subtracts_latest_size lib 7 "data:,A" 1).
  vm_compute. apply list_elem_of_here.
Defined.

End Sizes.

Section Statistics.

Lemma update_lookup types type size types' ext :
  updateFileTypeStats types type size = Some types' →
  types' !! ext =
    if bool_decide (extension_of type = Some ext)
    then count_in (types !! ext) (File "" type size)
    else types !! ext.
Proof.
  unfold updateFileTypeStats.
  destruct (extension_of type) as [e|]; simpl; [|done].
  intros [= <-]. case_bool_decide as He.
  - injection He as ->. unfold count_in. simpl.
    destruct (types !! ext); by rewrite lookup_insert_eq.
  - assert (e ≠ ext) by congruence.
    destruct (types !! e); by rewrite lookup_insert_ne.
Qed.

Lemma step_lookup lib op ext :
  fileTypes (lib_step lib op) !! ext =
    foldl count_in (fileTypes lib !! ext) (counted_with ext [op]).
Proof.
  destruct op as [id f width height src|imageId dataUrl size|imageId];
    unfold counted_with; simpl.
  - unfold addImage_onload.
    destruct (decide (width = 0%N ∨ height = 0%N)) as [H0|H0].
    { rewrite bool_decide_eq_false_2 by (intros (? & ? & _); tauto). done. }
    destruct (decide (16384 < width ∨ 16384 < height)%N) as [Hbig|Hbig].
    { rewrite bool_decide_eq_false_2 by (intros (_ & _ & ? & ?); lia). done. }
    rewrite bool_decide_eq_true_2 by (split_and!; [tauto|tauto|lia|lia]).
    simpl.
    destruct (updateFileTypeStats _ _ _) as [types'|] eqn:Hu; simpl.
    + rewrite (update_lookup _ _ _ _ ext Hu). by case_bool_decide.
    + unfold updateFileTypeStats in Hu.
      destruct (extension_of (f_type f)); [done|].
      by rewrite bool_decide_eq_false_2.
  - done.
  - unfold removeImage.
    by destruct (take_out imageId (images lib)) as [[img rest]|].
Qed.

Lemma counted_cons ext op ops :
  counted_with ext (op :: ops) = counted_with ext [op] ++ counted_with ext ops.
Proof. unfold counted_with. by rewrite (omap_app _ [op] ops). Qed.

Lemma run_lookup lib ops ext :
  fileTypes (lib_run lib ops) !! ext =
    foldl count_in (fileTypes lib !! ext) (counted_with ext ops).
Proof.
  revert lib. induction ops as [|op ops IH]; intros lib; [done|].
  rewrite counted_cons, foldl_app, <- step_lookup. apply IH.
Qed.

Lemma count_in_tally l f : count_in (tally l) f = tally (l ++ [f]).
Proof.
  unfold count_in, tally. destruct l as [|g l]; simpl.
  - do 2 f_equal. lia.
  - f_equal. rewrite length_app. simpl.
    assert (∀ l : list file,
      foldr (λ f acc, f_size f + acc)%N 0%N (l ++ [f])
      = (foldr (λ f acc, f_size f + acc)%N 0%N l + f_size f)%N) as Hsum.
    { clear. induction l as [|x l IH]; simpl; lia. }
    rewrite Hsum. f_equal; lia.
Qed.

Lemma foldl_count_in l1 l2 : foldl count_in (tally l1) l2 = tally (l1 ++ l2).
Proof.
  revert l1. induction l2 as [|f l2 IH]; intros l1; simpl.
  - by rewrite app_nil_r.
  - rewrite count_in_tally, IH. by rewrite <- app_assoc.
Qed.

(** X21.  The file-type statistics count additions, not the library
    and not the promises: after any history of loads, processings and
    removals from the start, the entry of an extension holds the number
    and the total size of the files that decoded to acceptable
    dimensions and have that extension, each of which was added to the
    library by its [img.onload] callback, whatever became of its
    promise; there is no entry when there was no such file, and no
    removal takes anything back. *)
Theorem statistics_count_every_load ops ext :
  fileTypes (lib_run empty_library ops) !! ext
  = tally (counted_with ext ops).
Proof.
  rewrite run_lookup. simpl. rewrite lookup_empty.
  apply (foldl_count_in []).
Qed.

End Statistics.

End LibraryFacts.
